(** * Inventory Pro: the stock ledger and balance engine of [app.py]

    The program keeps four SQLite tables ([transactions], [stock_summary],
    [expenses], [payments]) and a handful of helpers over them.  This file
    embeds those helpers as functions over an explicit database value and
    proves the properties of the stock ledger and of the party balances.

    Modelling conventions.
    - A table with [id INTEGER PRIMARY KEY AUTOINCREMENT] is a finite map from
      row ids to rows together with the counter SQLite keeps for the table in
      [sqlite_sequence].  [stock_summary], whose primary key is the triple
      [(category, item_type, unit)], is a finite map from triples to
      [current_stock].
    - [TEXT] columns are strings.  [REAL] columns are exact rationals ([Qc]):
      sums and differences are the mathematical ones, rounding of binary
      floating point is not represented.  Where rounding decides a property
      (posting a quantity and taking it back), the upsert is given a second
      time on IEEE 754 binary64 values, [stock_upsert_b64].
    - Every helper opens its own connection.  A connection that has executed a
      [DELETE] and not yet committed holds the write lock of the database file;
      a write attempted through another connection then fails with
      [sqlite3.OperationalError: database is locked] (after the busy timeout).
      The model keeps the file and the open write transaction apart so that
      this is visible. *)

From Stdlib Require Import QArith Qcanon Qcabs Ascii.
From Stdlib Require SpecFloat.
From stdpp Require Import sorting numbers strings gmap list.

Local Open Scope Z_scope.

(** ** Rows and tables *)

(** The 13-tuple [data] handed to [insert_transaction], in column order. *)
Record transaction := Transaction {
  t_date : string;
  t_category : string;
  t_item_type : string;
  t_unit : string;
  t_quantity : Qc;
  t_rate : Qc;
  t_amount : Qc;
  t_transaction_type : string;
  t_cash_credit : string;
  t_party_name : string;
  t_vehicle_name : string;
  t_site_name : string;
  t_remarks : string
}.

(** The 4-tuple handed to [insert_expense]. *)
Record expense := Expense {
  e_date : string;
  e_expense_type : string;
  e_amount : Qc;
  e_remarks : string
}.

(** The 5-tuple handed to [insert_payment]. *)
Record payment := Payment {
  p_date : string;
  p_party_name : string;
  p_payment_type : string;
  p_amount : Qc;
  p_remarks : string
}.

Abbreviation stock_key := (string * string * string)%type.

Record db := DB {
  transactions : gmap Z transaction;
  transactions_seq : Z;
  stock_summary : gmap stock_key Qc;
  expenses : gmap Z expense;
  expenses_seq : Z;
  payments : gmap Z payment;
  payments_seq : Z
}.

(** [init_db] on a fresh file: four empty tables. *)
Definition init_db : db :=
  DB ∅ 0 ∅ ∅ 0 ∅ 0.

(** The three table names the delete tool offers.  [delete_records] splices
    its [table] argument into the SQL text, so only these names are
    modelled. *)
Inductive table_name := Transactions | Expenses | Payments.

(** ** AUTOINCREMENT *)

Definition max_rowid {A} (t : gmap Z A) : Z :=
  foldr Z.max 0 ((map_to_list t).*1).

(** The rowid SQLite gives to a new row: one more than the largest rowid
    that is or ever was in the table. *)
Definition autoincrement {A} (t : gmap Z A) (seq : Z) : Z :=
  Z.max seq (max_rowid t) + 1.

(** ** Connections *)

Inductive error :=
  | OperationalError_database_is_locked.

(** The database file, and the write transaction that the connection of
    [delete_records] has open, if any: its private copy of the database. *)
Record world := World {
  file : db;
  open_txn : option db
}.

Definition idle (d : db) : world := World d None.

(** What the connection holding [open_txn] reads. *)
Definition conn_view (w : world) : db :=
  match open_txn w with Some v => v | None => file w end.

Inductive result :=
  | Ok (w : world)
  | Raise (e : error) (w : world).

(** What a call leaves behind once all its connections are gone: the file,
    and whether an exception escaped. *)
Inductive outcome :=
  | Returned (d : db)
  | Raised (e : error) (d : db).

Definition final (o : outcome) : db :=
  match o with Returned d => d | Raised _ d => d end.

(** ** Stock ledger *)

(** [INSERT INTO stock_summary ... ON CONFLICT(category, item_type, unit)
    DO UPDATE SET current_stock = current_stock + excluded.current_stock] *)
Definition stock_upsert (k : stock_key) (qty_change : Qc)
    (s : gmap stock_key Qc) : gmap stock_key Qc :=
  match s !! k with
  | None => <[k := qty_change]> s
  | Some current_stock => <[k := (current_stock + qty_change)%Qc]> s
  end.

Definition with_stock_summary (s : gmap stock_key Qc) (d : db) : db :=
  DB (transactions d) (transactions_seq d) s
     (expenses d) (expenses_seq d) (payments d) (payments_seq d).

(** [update_stock] connects on its own, upserts and commits.  It cannot take
    the write lock while another connection has a write transaction open. *)
Definition update_stock (category item_type unit : string) (qty_change : Qc)
    (w : world) : result :=
  match open_txn w with
  | Some _ => Raise OperationalError_database_is_locked w
  | None =>
      Ok (idle (with_stock_summary
                  (stock_upsert (category, item_type, unit) qty_change
                                (stock_summary (file w)))
                  (file w)))
  end.

(** ** Inserts *)

Definition insert_transaction_row (data : transaction) (d : db) : db :=
  let rid := autoincrement (transactions d) (transactions_seq d) in
  DB (<[rid := data]> (transactions d)) rid (stock_summary d)
     (expenses d) (expenses_seq d) (payments d) (payments_seq d).

(** [insert_transaction]: insert, commit, close; then [update_stock] with
    columns 1, 2, 3 and 4 of [data]. *)
Definition insert_transaction (data : transaction) (d : db) : outcome :=
  let d1 := insert_transaction_row data d in
  match update_stock (t_category data) (t_item_type data) (t_unit data)
                     (t_quantity data) (idle d1) with
  | Ok w => Returned (file w)
  | Raise e w => Raised e (file w)
  end.

Definition insert_expense (data : expense) (d : db) : db :=
  let rid := autoincrement (expenses d) (expenses_seq d) in
  DB (transactions d) (transactions_seq d) (stock_summary d)
     (<[rid := data]> (expenses d)) rid (payments d) (payments_seq d).

Definition insert_payment (data : payment) (d : db) : db :=
  let rid := autoincrement (payments d) (payments_seq d) in
  DB (transactions d) (transactions_seq d) (stock_summary d)
     (expenses d) (expenses_seq d) (<[rid := data]> (payments d)) rid.

(** ** Deletes *)

(** [DELETE FROM <table> WHERE id = ?] on the connection of
    [delete_records]: the first one begins its write transaction. *)
Definition delete_row (table : table_name) (rid : Z) (d : db) : db :=
  match table with
  | Transactions =>
      DB (delete rid (transactions d)) (transactions_seq d) (stock_summary d)
         (expenses d) (expenses_seq d) (payments d) (payments_seq d)
  | Expenses =>
      DB (transactions d) (transactions_seq d) (stock_summary d)
         (delete rid (expenses d)) (expenses_seq d) (payments d) (payments_seq d)
  | Payments =>
      DB (transactions d) (transactions_seq d) (stock_summary d)
         (expenses d) (expenses_seq d) (delete rid (payments d)) (payments_seq d)
  end.

Definition execute_delete (table : table_name) (rid : Z) (w : world) : world :=
  World (file w) (Some (delete_row table rid (conn_view w))).

(** The [SELECT category, item_type, unit, quantity ... WHERE id = ?] of the
    loop body and the reversal that follows it. *)
Definition reverse_stock (table : table_name) (rid : Z) (w : world) : result :=
  match table with
  | Transactions =>
      match transactions (conn_view w) !! rid with
      | Some row =>
          update_stock (t_category row) (t_item_type row) (t_unit row)
                       (- t_quantity row)%Qc w
      | None => Ok w
      end
  | _ => Ok w
  end.

Fixpoint delete_loop (table : table_name) (record_ids : list Z) (w : world)
    : result :=
  match record_ids with
  | [] => Ok w
  | rid :: rest =>
      match reverse_stock table rid w with
      | Ok w1 => delete_loop table rest (execute_delete table rid w1)
      | Raise e w1 => Raise e w1
      end
  end.

(** [delete_records]: the loop, then [conn.commit()].  When [update_stock]
    raises, the commit is never reached and the uncommitted deletes are
    rolled back when the connection goes away. *)
Definition delete_records (table : table_name) (record_ids : list Z) (d : db)
    : outcome :=
  match delete_loop table record_ids (idle d) with
  | Ok w => Returned (conn_view w)
  | Raise e w => Raised e (file w)
  end.

(** All the ids of a list deleted from one table, one after the other. *)
Definition delete_all (table : table_name) (ids : list Z) (d : db) : db :=
  foldl (λ acc rid, delete_row table rid acc) d ids.

(** ** Reads *)

Definition id_desc {A} : relation (Z * A) := λ r1 r2, r2.1 ≤ r1.1.

#[global] Instance id_desc_dec {A} : RelDecision (@id_desc A).
Proof. intros r1 r2. unfold id_desc. apply _. Defined.

(** Strictly descending ids. *)
Definition id_gt {A} : relation (Z * A) := λ r1 r2, r2.1 < r1.1.

(** [SELECT * FROM <table> ORDER BY id DESC] *)
Definition order_by_id_desc {A} (t : gmap Z A) : list (Z * A) :=
  merge_sort id_desc (map_to_list t).

(** The loaders return the rows of the query.  The [date_dt] column they add
    for the dashboard filters, and the reformatted [date] text, are left out:
    they touch neither the ids nor the order of the rows. *)
Definition load_transactions (d : db) : list (Z * transaction) :=
  order_by_id_desc (transactions d).

Definition load_expenses (d : db) : list (Z * expense) :=
  order_by_id_desc (expenses d).

Definition load_payments (d : db) : list (Z * payment) :=
  order_by_id_desc (payments d).

(** ** Stock & Credit page: party balances *)

Definition lower_ascii (c : ascii) : ascii :=
  let n := N_of_ascii c in
  if ((65 <=? n) && (n <=? 90))%N then ascii_of_N (n + 32) else c.

(** [str.lower()], on the ASCII letters. *)
Fixpoint lower (s : string) : string :=
  match s with
  | EmptyString => EmptyString
  | String c s' => String (lower_ascii c) (lower s')
  end.

(** [Series.sum()] *)
Definition series_sum (l : list Qc) : Qc := foldr Qcplus 0%Qc l.

(** [Series.unique()]: first occurrences, in order of appearance. *)
Fixpoint unique (l : list string) : list string :=
  match l with
  | [] => []
  | x :: l' => x :: filter (λ y, y ≠ x) (unique l')
  end.

Definition str_le : relation string := λ a b, String.leb a b.

#[global] Instance str_le_dec : RelDecision str_le.
Proof. intros a b. unfold str_le. apply _. Defined.

(** [sorted(...)] on a list of strings. *)
Definition sorted (l : list string) : list string := merge_sort str_le l.

(** [max(0, x)] *)
Definition max0 (x : Qc) : Qc := if decide (0 < x)%Qc then x else 0%Qc.

Definition epsilon : Qc := Q2Qc (1 # 100).

Record balance_row := BalanceRow {
  br_party_name : string;
  br_pending_receivable : Qc;
  br_pending_payable : Qc
}.

Record credit_page := CreditPage {
  detailed_list : list balance_row;
  outstanding_parties : list string;
  total_rec : Qc;
  total_pay : Qc
}.

Section balances.
Variable history_df : list (Z * transaction).
Variable payments_df : list (Z * payment).

Definition full_credit_df : list (Z * transaction) :=
  filter (λ r, lower (t_cash_credit r.2) = "credit") history_df.

Definition all_p_list : list string :=
  sorted (unique ((t_party_name ∘ snd) <$> history_df)).

Definition b_sale (p : string) : Qc :=
  series_sum ((t_amount ∘ snd) <$>
    filter (λ r, t_party_name r.2 = p ∧ t_transaction_type r.2 = "sale")
           full_credit_df).

Definition b_pur (p : string) : Qc :=
  series_sum ((t_amount ∘ snd) <$>
    filter (λ r, t_party_name r.2 = p ∧ t_transaction_type r.2 = "purchase")
           full_credit_df).

Definition r_pay (p : string) : Qc :=
  series_sum ((p_amount ∘ snd) <$>
    filter (λ r, p_party_name r.2 = p ∧ p_payment_type r.2 = "Inward")
           payments_df).

Definition p_pay (p : string) : Qc :=
  series_sum ((p_amount ∘ snd) <$>
    filter (λ r, p_party_name r.2 = p ∧ p_payment_type r.2 = "Outward")
           payments_df).

Definition net_receivable (p : string) : Qc := (b_sale p - r_pay p)%Qc.
Definition net_payable (p : string) : Qc := (b_pur p - p_pay p)%Qc.

Definition is_outstanding (p : string) : Prop :=
  (epsilon < net_receivable p)%Qc ∨ (epsilon < net_payable p)%Qc.

(** One turn of [for p in all_p_list]. *)
Definition credit_step (acc : credit_page) (p : string) : credit_page :=
  if decide (is_outstanding p) then
    CreditPage
      (detailed_list acc ++
         [BalanceRow p (max0 (net_receivable p)) (max0 (net_payable p))])
      (outstanding_parties acc ++ [p])
      (total_rec acc + max0 (net_receivable p))%Qc
      (total_pay acc + max0 (net_payable p))%Qc
  else acc.

Definition credit_balances : credit_page :=
  let start := CreditPage [] [] 0%Qc 0%Qc in
  match history_df with
  | [] => start
  | _ => foldl credit_step start all_p_list
  end.
End balances.

(** The row the loop appends for a listed party. *)
Definition report_row (history_df : list (Z * transaction))
    (payments_df : list (Z * payment)) (p : string) : balance_row :=
  BalanceRow p (max0 (net_receivable history_df payments_df p))
               (max0 (net_payable history_df payments_df p)).

(** The parties of a list that the loop lists. *)
Definition listed (history_df : list (Z * transaction))
    (payments_df : list (Z * payment)) (l : list string) : list string :=
  filter (is_outstanding history_df payments_df) l.

(** The balances as the page computes them on each run, from freshly loaded
    tables. *)
Definition stock_credit_page (d : db) : credit_page :=
  credit_balances (load_transactions d) (load_payments d).

(** ** Ledger quantities *)

Definition key_of (t : transaction) : stock_key :=
  (t_category t, t_item_type t, t_unit t).

(** The stock on hand for a key; a key without a row has had nothing posted. *)
Definition current_stock (k : stock_key) (d : db) : Qc :=
  default 0%Qc (stock_summary d !! k).

(** The sum of [quantity] over the transactions present under a key. *)
Definition ledger_sum (k : stock_key) (t : gmap Z transaction) : Qc :=
  series_sum ((t_quantity ∘ snd) <$>
    filter (λ r, key_of r.2 = k) (map_to_list t)).

Definition ledger_consistent (d : db) : Prop :=
  ∀ k, current_stock k d = ledger_sum k (transactions d).

(** The database with the stock of a transaction row reversed. *)
Definition reversed (row : transaction) (d : db) : db :=
  with_stock_summary
    (stock_upsert (key_of row) (- t_quantity row)%Qc (stock_summary d)) d.

(** ** Page handlers that call the inserts *)

(** The dict "Add Item to Bill" appends to the cart. *)
Record cart_entry := CartEntry {
  c_category : string;
  c_item_type : string;
  c_unit : string;
  c_quantity : Qc;
  c_rate : Qc;
  c_amount : Qc;
  c_transaction_type : string;
  c_cash_credit : string;
  c_party_name : string;
  c_vehicle_name : string;
  c_site_name : string;
  c_remarks : string
}.

(** "Add Item to Bill": refuses an empty party name, otherwise signs the
    quantity by the transaction type and appends the entry. *)
Definition add_item_to_bill (party_name site_name vehicle cat item unit
    t_type : string) (qty rate : Qc) (pay_mode remarks : string)
    (cart : list cart_entry) : list cart_entry :=
  if decide (party_name = "") then cart
  else
    let signed_qty := if decide (t_type = "purchase") then qty else (- qty)%Qc in
    cart ++ [CartEntry cat item unit signed_qty rate (qty * rate)%Qc
               t_type pay_mode party_name vehicle site_name remarks].

Definition cart_row (now : string) (entry : cart_entry) : transaction :=
  Transaction now (c_category entry) (c_item_type entry) (c_unit entry)
    (c_quantity entry) (c_rate entry) (c_amount entry)
    (c_transaction_type entry) (c_cash_credit entry) (c_party_name entry)
    (c_vehicle_name entry) (c_site_name entry) (c_remarks entry).

(** "Save Bill": one [insert_transaction] per cart entry. *)
Definition save_bill (now : string) (cart : list cart_entry) (d : db) : db :=
  foldl (λ acc entry, final (insert_transaction (cart_row now entry) acc)) d cart.

(** "Save Expense": inserts only when the amount is positive. *)
Definition save_expense (exp_date exp_type : string) (exp_amt : Qc)
    (exp_rem : string) (d : db) : db :=
  if decide (0 < exp_amt)%Qc
  then insert_expense (Expense exp_date exp_type exp_amt exp_rem) d
  else d.

(** "Save Payment Entry": inserts only when the amount is positive. *)
Definition save_payment_entry (now pay_party db_type : string) (pay_amt : Qc)
    (pay_rem : string) (d : db) : db :=
  if decide (0 < pay_amt)%Qc
  then insert_payment (Payment now pay_party db_type pay_amt pay_rem) d
  else d.

(** ** Balance formulas over the tables *)

(** Sum of [amount] over the transactions of a party with a given type whose
    payment mode passes [mode_ok]. *)
Definition billed (mode_ok : string → Prop) `{!∀ s, Decision (mode_ok s)}
    (ttype p : string) (t : gmap Z transaction) : Qc :=
  series_sum ((t_amount ∘ snd) <$>
    filter (λ r, mode_ok (t_cash_credit r.2) ∧ t_party_name r.2 = p ∧
                 t_transaction_type r.2 = ttype) (map_to_list t)).

(** Sum of [amount] over the payments of a party in a given direction. *)
Definition settled (ptype p : string) (t : gmap Z payment) : Qc :=
  series_sum ((p_amount ∘ snd) <$>
    filter (λ r, p_party_name r.2 = p ∧ p_payment_type r.2 = ptype)
           (map_to_list t)).

Definition credit_exact (s : string) : Prop := s = "credit".
Definition credit_any_case (s : string) : Prop := lower s = "credit".

#[global] Instance credit_exact_dec s : Decision (credit_exact s).
Proof. unfold credit_exact. apply _. Defined.

#[global] Instance credit_any_case_dec s : Decision (credit_any_case s).
Proof. unfold credit_any_case. apply _. Defined.

(** The receivable as the specification words it: credit means the payment
    mode is the string "credit". *)
Definition spec_net_receivable (d : db) (p : string) : Qc :=
  (billed credit_exact "sale" p (transactions d)
   - settled "Inward" p (payments d))%Qc.

Definition spec_net_payable (d : db) (p : string) : Qc :=
  (billed credit_exact "purchase" p (transactions d)
   - settled "Outward" p (payments d))%Qc.

(** ** Sequences of calls *)

Inductive operation :=
  | InsertTransaction (data : transaction)
  | DeleteRecords (table : table_name) (record_ids : list Z).

Definition apply_operation (o : operation) (d : db) : outcome :=
  match o with
  | InsertTransaction data => insert_transaction data d
  | DeleteRecords table record_ids => delete_records table record_ids d
  end.

(** The database after a sequence of calls, first to last. *)
Definition run (ops : list operation) (d : db) : db :=
  foldl (λ acc o, final (apply_operation o acc)) d ops.

(** Every call of the sequence returns normally. *)
Fixpoint all_return (ops : list operation) (d : db) : Prop :=
  match ops with
  | [] => True
  | o :: rest =>
      apply_operation o d = Returned (final (apply_operation o d)) ∧
      all_return rest (final (apply_operation o d))
  end.

(** ** The scenario of the specification *)

Definition cement : stock_key := ("Cement", "JK Strong", "bag").

Definition purchase_100 : transaction :=
  Transaction "2024-01-01 10:00" "Cement" "JK Strong" "bag"
    (Q2Qc (100 # 1)) (Q2Qc (300 # 1)) (Q2Qc (30000 # 1))
    "purchase" "cash" "Birla Depot" "" "" "".

Definition sale_40 : transaction :=
  Transaction "2024-01-02 10:00" "Cement" "JK Strong" "bag"
    (Q2Qc (-40 # 1)) (Q2Qc (350 # 1)) (Q2Qc (14000 # 1))
    "sale" "credit" "ABC Traders" "" "" "".

Definition after_purchase : db := final (insert_transaction purchase_100 init_db).
Definition after_sale : db := final (insert_transaction sale_40 after_purchase).

Definition sale_40_capitalised : transaction :=
  Transaction "2024-01-02 10:00" "Cement" "JK Strong" "bag"
    (Q2Qc (-40 # 1)) (Q2Qc (350 # 1)) (Q2Qc (14000 # 1))
    "sale" "Credit" "ABC Traders" "" "" "".

Definition zero_payment : payment :=
  Payment "2024-01-03 10:00" "ABC Traders" "Inward" 0%Qc "".

Definition blank_transaction : transaction :=
  Transaction "2024-01-03 10:00" "Cement" "JK Strong" "bag"
    0%Qc 0%Qc 0%Qc "sale" "cash" "" "" "" "".

(** ** Stock & Credit page: the two tables under the totals *)

(** [det_df[det_df['Pending Receivable (Client)'] > 0]] *)
Definition client_receivables (page : credit_page) : list balance_row :=
  filter (λ row, (0 < br_pending_receivable row)%Qc) (detailed_list page).

(** [det_df[det_df['Pending Payable (Supplier)'] > 0]] *)
Definition supplier_payables (page : credit_page) : list balance_row :=
  filter (λ row, (0 < br_pending_payable row)%Qc) (detailed_list page).

(** The "Net Market Balance" metric. *)
Definition net_market_balance (page : credit_page) : Qc :=
  (total_rec page - total_pay page)%Qc.

(** ** Bill Generator *)

(** Manual mode, once the ids are parsed:
    [history_df[history_df['id'].isin(id_list)]]. *)
Definition bill_data_manual (id_list : list Z)
    (history_df : list (Z * transaction)) : list (Z * transaction) :=
  filter (λ r, r.1 ∈ id_list) history_df.

(** A line of [display_bill]: date, item, quantity, unit, rate, amount. *)
Record bill_line := BillLine {
  bl_date : string;
  bl_item_type : string;
  bl_quantity : Qc;
  bl_unit : string;
  bl_rate : Qc;
  bl_amount : Qc
}.

(** The six displayed columns, quantity and amount in absolute value. *)
Definition display_bill (bill_data : list (Z * transaction)) : list bill_line :=
  (λ r, BillLine (t_date r.2) (t_item_type r.2) (Qcabs (t_quantity r.2))
                 (t_unit r.2) (t_rate r.2) (Qcabs (t_amount r.2)))
    <$> bill_data.

Definition total_val (bill_data : list (Z * transaction)) : Qc :=
  series_sum (bl_amount <$> display_bill bill_data).

(** What the page prints: nothing for an empty selection, otherwise the
    party of the first row, the lines and the total. *)
Definition printed_bill (bill_data : list (Z * transaction))
    : option (string * list bill_line * Qc) :=
  match bill_data with
  | [] => None
  | r :: _ => Some (t_party_name r.2, display_bill bill_data, total_val bill_data)
  end.

(** ** Results of the delete loop *)

Definition world_of (r : result) : world :=
  match r with Ok w => w | Raise _ w => w end.

(** ** The stock column in binary64 *)








(** A payment with a negative amount for a party that has no transaction. *)
Definition walk_in_refund : payment :=
  Payment "2024-01-03 10:00" "Walk-in" "Outward" (Q2Qc (-5 # 1)) "".

(** * Proofs *)

(** Deciding concrete equalities and disequalities of rationals. *)
Ltac qc_eq := apply Qc_is_canon; vm_compute; reflexivity.
Ltac qc_neq := intros Heq; apply (f_equal this) in Heq; vm_compute in Heq;
  discriminate Heq.

(** ** Row ids *)

Lemma foldr_max_ge (l : list Z) (i : Z) : i ∈ l → i ≤ foldr Z.max 0 l.
Proof.
  induction l as [|x l IH]; intros Hi.
  - by apply elem_of_nil in Hi.
  - apply elem_of_cons in Hi as [->|Hi]; simpl; [lia|].
    specialize (IH Hi). lia.
Qed.

Lemma max_rowid_ge {A} (t : gmap Z A) (i : Z) (x : A) :
  t !! i = Some x → i ≤ max_rowid t.
Proof.
  intros Hi. apply foldr_max_ge.
  apply list_elem_of_fmap. exists (i, x). split; [done|].
  by apply elem_of_map_to_list.
Qed.

Lemma autoincrement_gt {A} (t : gmap Z A) (seq i : Z) (x : A) :
  t !! i = Some x → i < autoincrement t seq.
Proof. intros Hi%max_rowid_ge. unfold autoincrement. lia. Qed.

Lemma autoincrement_fresh {A} (t : gmap Z A) (seq : Z) :
  t !! autoincrement t seq = None.
Proof.
  destruct (t !! autoincrement t seq) as [x|] eqn:E; [|done].
  apply (autoincrement_gt t seq) in E. lia.
Qed.

(** ** The upsert *)

Lemma stock_upsert_lookup (k k' : stock_key) (delta : Qc)
    (s : gmap stock_key Qc) :
  stock_upsert k delta s !! k' =
    if decide (k' = k)
    then Some (default 0%Qc (s !! k) + delta)%Qc
    else s !! k'.
Proof.
  unfold stock_upsert. case_decide as Hk.
  - subst k'. destruct (s !! k) as [v|]; rewrite lookup_insert_eq; simpl;
      [done | by rewrite Qcplus_0_l].
  - destruct (s !! k); by rewrite lookup_insert_ne.
Qed.

Lemma stock_upsert_dom (k : stock_key) (delta : Qc) (s : gmap stock_key Qc) :
  dom (stock_upsert k delta s) = {[k]} ∪ dom s.
Proof. unfold stock_upsert. destruct (s !! k); apply dom_insert_L. Qed.

Lemma current_stock_upsert (k k' : stock_key) (delta : Qc) (d : db) :
  current_stock k' (with_stock_summary (stock_upsert k delta (stock_summary d)) d) =
    if decide (k' = k) then (current_stock k' d + delta)%Qc
    else current_stock k' d.
Proof.
  unfold current_stock. simpl. rewrite stock_upsert_lookup.
  case_decide; by subst.
Qed.

(** C7 -- [update_stock] is an upsert: on a database nobody else is writing
    it succeeds; a key without a row gets a row holding the delta, a key with
    a row gets the delta added to its stock; every other row, and every other
    table, is as before; the keys afterwards are the old keys and this one, so
    no row is removed and no key gets a second row. *)
Theorem update_stock_upsert (category item_type unit : string) (delta : Qc)
    (d : db) :
  let k := (category, item_type, unit) in
  let d' := with_stock_summary (stock_upsert k delta (stock_summary d)) d in
  update_stock category item_type unit delta (idle d) = Ok (idle d') ∧
  stock_summary d' !! k =
    Some (match stock_summary d !! k with
          | None => delta
          | Some stock => (stock + delta)%Qc
          end) ∧
  (∀ k', stock_summary d' !! k' =
           if decide (k' = k) then stock_summary d' !! k
           else stock_summary d !! k') ∧
  dom (stock_summary d') = {[k]} ∪ dom (stock_summary d) ∧
  size (stock_summary d') =
    (if stock_summary d !! k is Some _ then size (stock_summary d)
     else S (size (stock_summary d))) ∧
  (transactions d', expenses d', payments d') =
    (transactions d, expenses d, payments d).
Proof.
  intros k d'. split; [done|]. subst d'. simpl.
  split; [|split; [|split; [|split]]].
  - unfold stock_upsert. destruct (stock_summary d !! k);
      by rewrite lookup_insert_eq.
  - intros k'. rewrite !stock_upsert_lookup. by repeat case_decide; subst.
  - apply stock_upsert_dom.
  - unfold stock_upsert. destruct (stock_summary d !! k) as [v|] eqn:E.
    + by rewrite map_size_insert, E.
    + by rewrite map_size_insert_None.
  - done.
Qed.

(** ** Inserting a transaction *)

Lemma insert_transaction_returns (data : transaction) (d : db) :
  insert_transaction data d =
    Returned (with_stock_summary
                (stock_upsert (key_of data) (t_quantity data) (stock_summary d))
                (insert_transaction_row data d)).
Proof. done. Qed.

(** C10 -- the stock posted by [insert_transaction] is the [quantity] column
    as given: whatever the date, rate, amount, transaction type, payment mode
    and descriptive columns are, the ledger afterwards is the upsert of the
    stored quantity under the record's key; the stock of that key moves by
    exactly the quantity and no other key moves. *)
Theorem insert_transaction_posts_quantity
    (date category item_type unit : string) (quantity rate amount : Qc)
    (transaction_type cash_credit party vehicle site remarks : string)
    (d : db) :
  let data := Transaction date category item_type unit quantity rate amount
                transaction_type cash_credit party vehicle site remarks in
  let k := (category, item_type, unit) in
  let d' := final (insert_transaction data d) in
  insert_transaction data d = Returned d' ∧
  stock_summary d' = stock_upsert k quantity (stock_summary d) ∧
  current_stock k d' = (current_stock k d + quantity)%Qc ∧
  (∀ k', current_stock k' d' =
           if decide (k' = k) then (current_stock k d + quantity)%Qc
           else current_stock k' d).
Proof.
  intros data k d'. subst d'. rewrite insert_transaction_returns. simpl.
  split; [done|]. split; [done|].
  assert (∀ k', current_stock k'
     (with_stock_summary (stock_upsert k quantity (stock_summary d))
        (insert_transaction_row data d)) =
     if decide (k' = k) then (current_stock k d + quantity)%Qc
     else current_stock k' d) as H.
  { intros k'. unfold current_stock. simpl. rewrite stock_upsert_lookup.
    case_decide; by subst. }
  split; [|exact H]. rewrite H. by rewrite decide_True.
Qed.

(** ** Sums over the rows of a table *)

Lemma series_sum_perm (l1 l2 : list Qc) :
  l1 ≡ₚ l2 → series_sum l1 = series_sum l2.
Proof.
  unfold series_sum. induction 1 as [|x l1 l2 _ IH|x y l|l1 l2 l3 _ IH1 _ IH2];
    cbn [foldr]; [done | by rewrite IH | ring | congruence].
Qed.

Lemma series_sum_app (l1 l2 : list Qc) :
  series_sum (l1 ++ l2) = (series_sum l1 + series_sum l2)%Qc.
Proof.
  unfold series_sum. induction l1 as [|x l1 IH]; cbn [foldr app]; [ring|].
  rewrite IH. ring.
Qed.

Lemma ledger_sum_insert (k : stock_key) (t : gmap Z transaction) (i : Z)
    (x : transaction) :
  t !! i = None →
  ledger_sum k (<[i := x]> t) =
    if decide (key_of x = k) then (ledger_sum k t + t_quantity x)%Qc
    else ledger_sum k t.
Proof.
  intros Hi. unfold ledger_sum.
  rewrite (series_sum_perm _
    ((t_quantity ∘ snd) <$> filter (λ r, key_of r.2 = k) ((i, x) :: map_to_list t))).
  2:{ apply fmap_Permutation, filter_Permutation. by apply map_to_list_insert. }
  rewrite filter_cons. cbn [snd]. case_decide; [|done].
  unfold series_sum. cbn [fmap list_fmap foldr compose snd]. ring.
Qed.

Lemma ledger_sum_delete (k : stock_key) (t : gmap Z transaction) (i : Z)
    (x : transaction) :
  t !! i = Some x →
  ledger_sum k (delete i t) =
    if decide (key_of x = k) then (ledger_sum k t + - t_quantity x)%Qc
    else ledger_sum k t.
Proof.
  intros Hi.
  pose proof (ledger_sum_insert k (delete i t) i x (lookup_delete_eq t i)) as H.
  rewrite (insert_delete_id t i x Hi) in H. rewrite H.
  case_decide; [ring|done].
Qed.

(** ** The ledger invariant, operation by operation *)

Lemma ledger_consistent_init : ledger_consistent init_db.
Proof. intros k. unfold current_stock, ledger_sum. simpl.
  by rewrite lookup_empty, map_to_list_empty. Qed.

Lemma insert_transaction_consistent (data : transaction) (d : db) :
  ledger_consistent d → ledger_consistent (final (insert_transaction data d)).
Proof.
  intros Hd k. rewrite insert_transaction_returns. simpl.
  unfold current_stock. simpl. rewrite stock_upsert_lookup.
  rewrite ledger_sum_insert by apply autoincrement_fresh.
  specialize (Hd k). unfold current_stock in Hd.
  repeat case_decide; try congruence; subst; simpl; by rewrite ?Hd.
Qed.

(** A transaction row leaves together with its stock. *)
Lemma reverse_and_delete_consistent (rid : Z) (row : transaction) (d : db) :
  ledger_consistent d →
  transactions d !! rid = Some row →
  ledger_consistent
    (delete_row Transactions rid
       (with_stock_summary
          (stock_upsert (key_of row) (- t_quantity row)%Qc (stock_summary d)) d)).
Proof.
  intros Hd Hrow k. unfold current_stock. simpl.
  rewrite stock_upsert_lookup, (ledger_sum_delete _ _ _ _ Hrow).
  specialize (Hd k). unfold current_stock in Hd.
  repeat case_decide; try congruence; subst; simpl; by rewrite ?Hd.
Qed.

Lemma delete_row_absent (rid : Z) (d : db) :
  transactions d !! rid = None → delete_row Transactions rid d = d.
Proof. intros H. destruct d. simpl in *. by rewrite delete_id. Qed.

Lemma delete_loop_consistent (table : table_name) (ids : list Z) (w w' : world) :
  ledger_consistent (conn_view w) →
  delete_loop table ids w = Ok w' →
  ledger_consistent (conn_view w').
Proof.
  revert w. induction ids as [|rid ids IH]; intros w Hw; simpl.
  - by intros [= <-].
  - destruct (reverse_stock table rid w) as [w1|e w1] eqn:Hrev; [|done].
    apply IH. unfold execute_delete, conn_view at 1. simpl.
    destruct table; simpl in Hrev.
    + destruct (transactions (conn_view w) !! rid) as [row|] eqn:Hrow.
      * unfold update_stock in Hrev.
        destruct w as [f [v|]]; simpl in *; [done|].
        injection Hrev as <-. unfold conn_view in *. simpl in *.
        by apply reverse_and_delete_consistent.
      * injection Hrev as <-. by rewrite delete_row_absent.
    + injection Hrev as <-. intros k. apply (Hw k).
    + injection Hrev as <-. intros k. apply (Hw k).
Qed.

(** Whenever [delete_records] returns normally, the ledger is as consistent
    as it was. *)
Lemma delete_records_returned_consistent (table : table_name) (ids : list Z)
    (d d' : db) :
  ledger_consistent d →
  delete_records table ids d = Returned d' →
  ledger_consistent d'.
Proof.
  intros Hd. unfold delete_records.
  destruct (delete_loop table ids (idle d)) as [w|e w] eqn:Hloop; [|done].
  intros [= <-]. by apply (delete_loop_consistent table ids (idle d)).
Qed.

(** ** What a batch delete does *)

Lemma delete_loop_cons (table : table_name) (rid : Z) (rest : list Z) (w : world) :
  delete_loop table (rid :: rest) w =
    match reverse_stock table rid w with
    | Ok w1 => delete_loop table rest (execute_delete table rid w1)
    | Raise e w1 => Raise e w1
    end.
Proof. done. Qed.

Lemma reverse_stock_missing (rid : Z) (w : world) :
  transactions (conn_view w) !! rid = None →
  reverse_stock Transactions rid w = Ok w.
Proof. intros H. unfold reverse_stock. by rewrite H. Qed.

Lemma reverse_stock_idle_present (rid : Z) (d : db) (row : transaction) :
  transactions d !! rid = Some row →
  reverse_stock Transactions rid (idle d) = Ok (idle (reversed row d)).
Proof. intros H. unfold reverse_stock, conn_view, idle. cbn [open_txn file].
  by rewrite H. Qed.

Lemma reverse_stock_locked_present (rid : Z) (f v : db) (row : transaction) :
  transactions v !! rid = Some row →
  reverse_stock Transactions rid (World f (Some v)) =
    Raise OperationalError_database_is_locked (World f (Some v)).
Proof. intros H. unfold reverse_stock, conn_view. cbn [open_txn file].
  by rewrite H. Qed.

Lemma execute_delete_idle (table : table_name) (rid : Z) (d : db) :
  execute_delete table rid (idle d) = World d (Some (delete_row table rid d)).
Proof. done. Qed.

Lemma execute_delete_locked (table : table_name) (rid : Z) (f v : db) :
  execute_delete table rid (World f (Some v)) =
    World f (Some (delete_row table rid v)).
Proof. done. Qed.

Lemma delete_loop_locked_missing (ids : list Z) (f v : db) :
  Forall (λ rid, transactions v !! rid = None) ids →
  delete_loop Transactions ids (World f (Some v)) = Ok (World f (Some v)).
Proof.
  induction 1 as [|rid ids Hrid _ IH]; [done|].
  rewrite delete_loop_cons, reverse_stock_missing by done.
  by rewrite execute_delete_locked, delete_row_absent.
Qed.

(** Once the connection has executed a [DELETE], the next id that is still
    present makes [update_stock] fail. *)
Lemma delete_loop_locked_present (rid : Z) (rest : list Z) (f v : db)
    (row : transaction) :
  transactions v !! rid = Some row →
  delete_loop Transactions (rid :: rest) (World f (Some v)) =
    Raise OperationalError_database_is_locked (World f (Some v)).
Proof.
  intros Hrow.
  by rewrite delete_loop_cons, (reverse_stock_locked_present _ _ _ row).
Qed.

Lemma delete_records_all_missing (ids : list Z) (d : db) :
  Forall (λ rid, transactions d !! rid = None) ids →
  delete_records Transactions ids d = Returned d.
Proof.
  intros Hids. unfold delete_records. destruct Hids as [|rid ids Hrid Hids]; [done|].
  rewrite delete_loop_cons, reverse_stock_missing by done.
  rewrite execute_delete_idle, delete_row_absent by done.
  by rewrite delete_loop_locked_missing.
Qed.

Lemma delete_records_present_then_missing (rid : Z) (rest : list Z) (d : db)
    (row : transaction) :
  transactions d !! rid = Some row →
  Forall (λ r, r = rid ∨ transactions d !! r = None) rest →
  delete_records Transactions (rid :: rest) d =
    Returned (delete_row Transactions rid (reversed row d)).
Proof.
  intros Hrow Hrest. unfold delete_records.
  rewrite delete_loop_cons, (reverse_stock_idle_present _ _ row) by done.
  rewrite execute_delete_idle, delete_loop_locked_missing; [done|].
  induction Hrest as [|r rest Hr _ IH]; constructor; [|done].
  cbn [delete_row reversed with_stock_summary transactions].
  destruct (decide (r = rid)) as [->|Hne].
  - apply lookup_delete_eq.
  - rewrite lookup_delete_ne by done. by destruct Hr.
Qed.

Lemma delete_records_missing_then_present (a b : Z) (rest : list Z) (d : db)
    (row : transaction) :
  transactions d !! a = None →
  transactions d !! b = Some row →
  delete_records Transactions (a :: b :: rest) d =
    Raised OperationalError_database_is_locked d.
Proof.
  intros Ha Hb. unfold delete_records.
  rewrite delete_loop_cons, reverse_stock_missing by done.
  rewrite execute_delete_idle, delete_row_absent by done.
  by rewrite (delete_loop_locked_present b rest d d row Hb).
Qed.

Lemma delete_records_two_present (a b : Z) (rest : list Z) (d : db)
    (row_a row_b : transaction) :
  a ≠ b →
  transactions d !! a = Some row_a →
  transactions d !! b = Some row_b →
  delete_records Transactions (a :: b :: rest) d =
    Raised OperationalError_database_is_locked (reversed row_a d).
Proof.
  intros Hab Ha Hb. unfold delete_records.
  rewrite delete_loop_cons, (reverse_stock_idle_present _ _ row_a) by done.
  rewrite execute_delete_idle.
  rewrite (delete_loop_locked_present b rest _ _ row_b); [done|].
  cbn [delete_row reversed with_stock_summary transactions].
  by rewrite lookup_delete_ne.
Qed.

Lemma after_sale_rows :
  transactions after_sale = <[2 := sale_40]> (<[1 := purchase_100]> ∅).
Proof. reflexivity. Qed.

(** With exact sums, the ledger agrees with the log after every sequence of
    calls in which each call returns normally. *)
Lemma run_consistent (ops : list operation) (d : db) :
  ledger_consistent d → all_return ops d → ledger_consistent (run ops d).
Proof.
  revert d. induction ops as [|o ops IH]; intros d Hd Hret; [done|].
  destruct Hret as [Ho Hrest]. unfold run. cbn [foldl]. apply IH; [|done].
  destruct o as [data|table ids]; cbn [apply_operation] in *.
  - by apply insert_transaction_consistent.
  - by apply (delete_records_returned_consistent table ids d).
Qed.

Lemma after_sale_consistent : ledger_consistent after_sale.
Proof.
  apply insert_transaction_consistent, insert_transaction_consistent,
    ledger_consistent_init.
Qed.

(** C1 -- after the purchase of 100 bags and the sale of 40 the ledger agrees
    with the log (stock 60), but deleting both records in one call breaks it:
    the stock of the first record is reversed and committed by
    [update_stock], its [DELETE] then holds the write lock, the reversal of
    the second record cannot be written, the call raises, and the pending
    [DELETE] is rolled back.  Both transactions are still there (quantities
    100 and -40) while the ledger says -40. *)
Theorem batch_delete_breaks_ledger :
  let broken := reversed purchase_100 after_sale in
  run [InsertTransaction purchase_100; InsertTransaction sale_40] init_db =
    after_sale ∧
  run [InsertTransaction purchase_100; InsertTransaction sale_40;
       DeleteRecords Transactions [1; 2]] init_db = broken ∧
  ledger_consistent after_sale ∧
  current_stock cement after_sale = Q2Qc (60 # 1) ∧
  delete_records Transactions [1; 2] after_sale =
    Raised OperationalError_database_is_locked broken ∧
  transactions broken = transactions after_sale ∧
  ledger_sum cement (transactions broken) = Q2Qc (60 # 1) ∧
  current_stock cement broken = Q2Qc (-40 # 1) ∧
  ¬ ledger_consistent broken.
Proof.
  intros broken.
  assert (current_stock cement broken = Q2Qc (-40 # 1)) as Hstock by qc_eq.
  assert (ledger_sum cement (transactions broken) = Q2Qc (60 # 1)) as Hsum
    by qc_eq.
  assert (delete_records Transactions [1; 2] after_sale =
            Raised OperationalError_database_is_locked broken) as Hdel
    by by apply (delete_records_two_present 1 2 [] after_sale purchase_100 sale_40).
  split; [done|].
  split; [unfold run; cbn [foldl apply_operation]; fold after_purchase after_sale;
          by rewrite Hdel|].
  split; [apply after_sale_consistent|].
  split; [qc_eq|].
  split; [done|].
  split; [done|]. split; [done|]. split; [done|].
  intros Hcons. specialize (Hcons cement). rewrite Hstock, Hsum in Hcons.
  revert Hcons. qc_neq.
Qed.

(** C5 -- a stale id ahead of a live one aborts the batch: the [DELETE] for
    the stale id 99 opens the write transaction, [update_stock] for id 1 then
    finds the database locked, the call raises and nothing is removed.  With
    the live id first the same batch goes through. *)
Theorem stale_id_first_aborts_batch :
  transactions after_purchase !! 99 = None ∧
  transactions after_purchase !! 1 = Some purchase_100 ∧
  delete_records Transactions [99; 1] after_purchase =
    Raised OperationalError_database_is_locked after_purchase ∧
  delete_records Transactions [1; 99] after_purchase =
    Returned (delete_row Transactions 1 (reversed purchase_100 after_purchase)) ∧
  transactions (delete_row Transactions 1 (reversed purchase_100 after_purchase)) = ∅ ∧
  current_stock cement
    (delete_row Transactions 1 (reversed purchase_100 after_purchase)) = 0%Qc.
Proof.
  split; [done|]. split; [done|].
  split; [by apply (delete_records_missing_then_present 99 1 [] _ purchase_100)|].
  split.
  { apply delete_records_present_then_missing; [done|].
    constructor; [by right | constructor]. }
  split; [done|]. qc_eq.
Qed.




(** ** Read order *)

#[global] Instance id_desc_trans {A} : Transitive (@id_desc A).
Proof. intros x y z. unfold id_desc. lia. Qed.

#[global] Instance id_desc_total {A} : Total (@id_desc A).
Proof. intros x y. unfold id_desc. lia. Qed.

Lemma order_by_id_desc_perm {A} (t : gmap Z A) :
  order_by_id_desc t ≡ₚ map_to_list t.
Proof. apply merge_sort_Permutation. Qed.

Lemma sorted_nodup_strict {A} (l : list (Z * A)) :
  NoDup (l.*1) → StronglySorted id_desc l → StronglySorted id_gt l.
Proof.
  intros Hnd Hs. induction Hs as [|x l Hs IH Hx]; [constructor|].
  cbn [fmap list_fmap] in Hnd. inversion_clear Hnd as [|? ? Hx' Hnd'].
  constructor; [by apply IH|].
  rewrite Forall_forall in Hx |- *. intros y Hy.
  specialize (Hx y Hy). unfold id_desc in Hx. unfold id_gt.
  assert (y.1 ≠ x.1); [|lia].
  intros Heq. apply Hx'. rewrite <-Heq.
  apply list_elem_of_fmap. by exists y.
Qed.

Lemma order_by_id_desc_strict {A} (t : gmap Z A) :
  StronglySorted id_gt (order_by_id_desc t).
Proof.
  apply sorted_nodup_strict.
  - rewrite order_by_id_desc_perm. apply NoDup_fst_map_to_list.
  - apply StronglySorted_merge_sort; apply _.
Qed.

(** A new row gets an id above all others and so is read first. *)
Lemma order_by_id_desc_insert {A} (t : gmap Z A) (seq : Z) (x : A) :
  order_by_id_desc (<[autoincrement t seq := x]> t) =
    (autoincrement t seq, x) :: order_by_id_desc t.
Proof.
  apply (StronglySorted_unique_strong id_gt).
  - intros r1 r2 _ _. unfold id_gt. lia.
  - apply order_by_id_desc_strict.
  - constructor; [apply order_by_id_desc_strict|].
    rewrite Forall_forall. intros [i y] Hy.
    unfold id_gt. cbn [fst]. rewrite order_by_id_desc_perm in Hy. apply elem_of_map_to_list in Hy.
    by apply (autoincrement_gt t seq) in Hy.
  - rewrite !order_by_id_desc_perm.
    apply map_to_list_insert, autoincrement_fresh.
Qed.

(** C8 -- each loader returns every row of its table exactly once, with ids
    strictly descending; and since a new row is given an id above all
    present ones, the row just inserted is the first one read, ahead of the
    rows read before: newest first. *)
Theorem loads_newest_first (d : db) (t : transaction) (e : expense)
    (p : payment) :
  (load_transactions d ≡ₚ map_to_list (transactions d) ∧
   StronglySorted id_gt (load_transactions d) ∧
   load_transactions (final (insert_transaction t d)) =
     (autoincrement (transactions d) (transactions_seq d), t)
       :: load_transactions d) ∧
  (load_expenses d ≡ₚ map_to_list (expenses d) ∧
   StronglySorted id_gt (load_expenses d) ∧
   load_expenses (insert_expense e d) =
     (autoincrement (expenses d) (expenses_seq d), e) :: load_expenses d) ∧
  (load_payments d ≡ₚ map_to_list (payments d) ∧
   StronglySorted id_gt (load_payments d) ∧
   load_payments (insert_payment p d) =
     (autoincrement (payments d) (payments_seq d), p) :: load_payments d).
Proof.
  unfold load_transactions, load_expenses, load_payments.
  repeat split; try apply order_by_id_desc_perm;
    try apply order_by_id_desc_strict.
  - rewrite insert_transaction_returns. apply order_by_id_desc_insert.
  - apply order_by_id_desc_insert.
  - apply order_by_id_desc_insert.
Qed.

(** ** Frame of the expense and payment operations *)

Lemma delete_loop_no_reversal (table : table_name) (ids : list Z) (w : world) :
  table ≠ Transactions →
  ∃ w', delete_loop table ids w = Ok w' ∧
        conn_view w' = delete_all table ids (conn_view w).
Proof.
  intros Ht. revert w. induction ids as [|rid ids IH]; intros w.
  - by exists w.
  - rewrite delete_loop_cons.
    assert (reverse_stock table rid w = Ok w) as -> by by destruct table.
    destruct (IH (execute_delete table rid w)) as (w' & Hw' & Hview).
    exists w'. split; [done|]. by rewrite Hview.
Qed.

Lemma delete_records_no_reversal (table : table_name) (ids : list Z) (d : db) :
  table ≠ Transactions →
  delete_records table ids d = Returned (delete_all table ids d).
Proof.
  intros Ht. unfold delete_records.
  destruct (delete_loop_no_reversal table ids (idle d) Ht) as (w' & -> & Hview).
  by rewrite Hview.
Qed.

Lemma delete_all_expenses (ids : list Z) (d : db) :
  delete_all Expenses ids d =
    DB (transactions d) (transactions_seq d) (stock_summary d)
       (foldl (λ acc rid, delete rid acc) (expenses d) ids) (expenses_seq d)
       (payments d) (payments_seq d).
Proof.
  revert d. induction ids as [|rid ids IH]; intros d; [by destruct d|].
  unfold delete_all in *. cbn [foldl]. by rewrite IH.
Qed.

Lemma delete_all_payments (ids : list Z) (d : db) :
  delete_all Payments ids d =
    DB (transactions d) (transactions_seq d) (stock_summary d)
       (expenses d) (expenses_seq d)
       (foldl (λ acc rid, delete rid acc) (payments d) ids) (payments_seq d).
Proof.
  revert d. induction ids as [|rid ids IH]; intros d; [by destruct d|].
  unfold delete_all in *. cbn [foldl]. by rewrite IH.
Qed.

(** C9 -- [insert_expense] writes the expenses table and its id counter and
    nothing else, [insert_payment] the payments table and its counter and
    nothing else.  [delete_records] on "expenses" or "payments" always
    returns, posts nothing to the stock ledger, leaves the transactions and
    every other table as they were, and what it leaves in its own table is
    determined by that table and the ids alone. *)
Theorem expense_payment_operations_frame (d : db) (e : expense) (p : payment)
    (ids : list Z) :
  insert_expense e d =
    DB (transactions d) (transactions_seq d) (stock_summary d)
       (<[autoincrement (expenses d) (expenses_seq d) := e]> (expenses d))
       (autoincrement (expenses d) (expenses_seq d))
       (payments d) (payments_seq d) ∧
  insert_payment p d =
    DB (transactions d) (transactions_seq d) (stock_summary d)
       (expenses d) (expenses_seq d)
       (<[autoincrement (payments d) (payments_seq d) := p]> (payments d))
       (autoincrement (payments d) (payments_seq d)) ∧
  delete_records Expenses ids d =
    Returned
      (DB (transactions d) (transactions_seq d) (stock_summary d)
          (foldl (λ acc rid, delete rid acc) (expenses d) ids) (expenses_seq d)
          (payments d) (payments_seq d)) ∧
  delete_records Payments ids d =
    Returned
      (DB (transactions d) (transactions_seq d) (stock_summary d)
          (expenses d) (expenses_seq d)
          (foldl (λ acc rid, delete rid acc) (payments d) ids) (payments_seq d)).
Proof.
  split; [done|]. split; [done|]. split.
  - by rewrite delete_records_no_reversal, delete_all_expenses.
  - by rewrite delete_records_no_reversal, delete_all_payments.
Qed.

(** ** Validation *)

(** C6 as stated fails: a payment of amount zero and a transaction with an
    empty party name, zero quantity and zero amount are both written. *)
Lemma invalid_records_are_stored :
  (p_amount zero_payment ≤ 0)%Qc ∧
  payments (insert_payment zero_payment init_db) = {[1 := zero_payment]} ∧
  payments (insert_payment zero_payment init_db) ≠ payments init_db ∧
  t_party_name blank_transaction = "" ∧
  (t_quantity blank_transaction ≤ 0)%Qc ∧
  transactions (final (insert_transaction blank_transaction init_db)) =
    {[1 := blank_transaction]} ∧
  transactions (final (insert_transaction blank_transaction init_db)) ≠
    transactions init_db.
Proof.
  assert (∀ {A} (x : A), ({[1 := x]} : gmap Z A) ≠ ∅) as Hne.
  { intros A x Heq. apply (f_equal (lookup 1)) in Heq.
    by rewrite lookup_singleton_eq, lookup_empty in Heq. }
  split; [done|]. split; [done|]. split; [apply Hne|].
  split; [done|]. split; [done|]. split; [done|]. apply Hne.
Qed.

(** C6, amended -- the inserts do not validate.  [insert_payment] stores the
    record it is given under a new id whatever its amount, and
    [insert_transaction] stores its record and posts its quantity whatever
    the party name, quantity and amount are; neither raises nor leaves the
    database unchanged.  Non-positive payment amounts are screened by the
    caller: "Save Payment Entry" leaves the database as it is exactly when
    the amount is not positive, and "Add Item to Bill" leaves the cart as it
    is when the party name is empty. *)
Theorem inserts_do_not_validate (pay : payment) (data : transaction) (d : db)
    (now pay_party db_type pay_rem : string) (pay_amt : Qc)
    (site vehicle cat item unit t_type pay_mode remarks : string)
    (qty rate : Qc) (cart : list cart_entry) :
  let pid := autoincrement (payments d) (payments_seq d) in
  let tid := autoincrement (transactions d) (transactions_seq d) in
  let d' := final (insert_transaction data d) in
  (payments d !! pid = None ∧
   payments (insert_payment pay d) !! pid = Some pay) ∧
  (insert_transaction data d = Returned d' ∧
   transactions d !! tid = None ∧
   transactions d' !! tid = Some data ∧
   stock_summary d' =
     stock_upsert (key_of data) (t_quantity data) (stock_summary d)) ∧
  (save_payment_entry now pay_party db_type pay_amt pay_rem d = d
     ↔ (pay_amt ≤ 0)%Qc) ∧
  add_item_to_bill "" site vehicle cat item unit t_type qty rate pay_mode
    remarks cart = cart.
Proof.
  intros pid tid d'. split; [|split; [|split]].
  - split; [apply autoincrement_fresh | apply lookup_insert_eq].
  - subst d'. rewrite insert_transaction_returns.
    split; [done|]. split; [apply autoincrement_fresh|].
    split; [apply lookup_insert_eq | done].
  - unfold save_payment_entry. case_decide as Hamt.
    + split.
      * intros Heq. apply (f_equal (λ x, payments x !! pid)) in Heq.
        cbn [insert_payment payments] in Heq. fold pid in Heq.
        rewrite lookup_insert_eq in Heq. subst pid.
        by rewrite autoincrement_fresh in Heq.
      * intros Hle. by apply Qcle_ngt in Hle.
    + split; [|done]. intros _. by apply Qcle_ngt.
  - done.
Qed.

(** ** Party balances *)

Lemma filtered_sum_sorted {A} (f : Z * A → Qc) (P Q : Z * A → Prop)
    `{!∀ r, Decision (P r)} `{!∀ r, Decision (Q r)} (t : gmap Z A) :
  (∀ r, P r ↔ Q r) →
  series_sum (f <$> filter P (order_by_id_desc t)) =
    series_sum (f <$> filter Q (map_to_list t)).
Proof.
  intros HPQ. rewrite (list_filter_iff P Q) by done.
  apply series_sum_perm, fmap_Permutation, filter_Permutation,
    order_by_id_desc_perm.
Qed.

Lemma billed_from_history (d : db) (ttype p : string) :
  series_sum ((t_amount ∘ snd) <$>
    filter (λ r, t_party_name r.2 = p ∧ t_transaction_type r.2 = ttype)
           (full_credit_df (load_transactions d))) =
  billed credit_any_case ttype p (transactions d).
Proof.
  unfold full_credit_df, load_transactions, billed.
  rewrite list_filter_filter. apply filtered_sum_sorted.
  intros r. unfold credit_any_case. tauto.
Qed.

Lemma settled_from_payments (d : db) (ptype p : string) :
  series_sum ((p_amount ∘ snd) <$>
    filter (λ r, p_party_name r.2 = p ∧ p_payment_type r.2 = ptype)
           (load_payments d)) =
  settled ptype p (payments d).
Proof. unfold load_payments, settled. by apply filtered_sum_sorted. Qed.

(** C3 as stated fails: a sale stored with payment mode "Credit" is counted
    by the page, which lower-cases the mode before comparing, and is not
    counted by the formula with [cash_credit == "credit"]. *)
Lemma capitalised_credit_is_counted :
  let d := final (insert_transaction sale_40_capitalised init_db) in
  net_receivable (load_transactions d) (load_payments d) "ABC Traders" =
    Q2Qc (14000 # 1) ∧
  spec_net_receivable d "ABC Traders" = 0%Qc ∧
  net_receivable (load_transactions d) (load_payments d) "ABC Traders" ≠
    spec_net_receivable d "ABC Traders".
Proof.
  intros d.
  assert (net_receivable (load_transactions d) (load_payments d) "ABC Traders"
            = Q2Qc (14000 # 1)) as H1 by qc_eq.
  assert (spec_net_receivable d "ABC Traders" = 0%Qc) as H2 by qc_eq.
  split; [done|]. split; [done|]. rewrite H1, H2. qc_neq.
Qed.

(** C3, amended -- for every party the page's net receivable is the sum of
    [amount] over the transactions in the table with that party, type "sale"
    and payment mode equal to "credit" up to letter case, minus the sum of
    [amount] over the party's "Inward" payments in the table; the net payable
    is the same with "purchase" and "Outward".  Both are functions of the two
    tables as they are when the page runs. *)
Theorem party_balances_from_logs (d : db) (p : string) :
  net_receivable (load_transactions d) (load_payments d) p =
    (billed credit_any_case "sale" p (transactions d)
     - settled "Inward" p (payments d))%Qc ∧
  net_payable (load_transactions d) (load_payments d) p =
    (billed credit_any_case "purchase" p (transactions d)
     - settled "Outward" p (payments d))%Qc.
Proof.
  unfold net_receivable, net_payable, b_sale, b_pur, r_pay, p_pay.
  by rewrite !billed_from_history, !settled_from_payments.
Qed.

(** ** The outstanding list *)

Lemma max0_nonneg (x : Qc) : (0 ≤ max0 x)%Qc.
Proof. unfold max0. case_decide; [by apply Qclt_le_weak | apply Qcle_refl]. Qed.

Lemma elem_of_unique (l : list string) (x : string) : x ∈ unique l ↔ x ∈ l.
Proof.
  induction l as [|y l IH]; [done|]. cbn [unique].
  rewrite !elem_of_cons, list_elem_of_filter, IH.
  destruct (decide (x = y)); tauto.
Qed.

Lemma NoDup_unique (l : list string) : NoDup (unique l).
Proof.
  induction l as [|y l IH]; cbn [unique]; constructor.
  - rewrite list_elem_of_filter. by intros [Hy _].
  - by apply NoDup_filter.
Qed.

Lemma elem_of_all_p_list (history_df : list (Z * transaction)) (p : string) :
  p ∈ all_p_list history_df ↔ ∃ r, r ∈ history_df ∧ t_party_name r.2 = p.
Proof.
  unfold all_p_list, sorted.
  rewrite merge_sort_Permutation, elem_of_unique, list_elem_of_fmap.
  split; intros (r & H1 & H2); exists r; by split.
Qed.

Lemma NoDup_all_p_list (history_df : list (Z * transaction)) :
  NoDup (all_p_list history_df).
Proof.
  unfold all_p_list, sorted. rewrite merge_sort_Permutation.
  apply NoDup_unique.
Qed.

Section loop.
Variable history_df : list (Z * transaction).
Variable payments_df : list (Z * payment).

Lemma credit_loop (l : list string) (acc : credit_page) :
  foldl (credit_step history_df payments_df) acc l =
    CreditPage
      (detailed_list acc ++
         (report_row history_df payments_df <$> listed history_df payments_df l))
      (outstanding_parties acc ++ listed history_df payments_df l)
      (total_rec acc +
         series_sum (br_pending_receivable ∘ report_row history_df payments_df
                       <$> listed history_df payments_df l))%Qc
      (total_pay acc +
         series_sum (br_pending_payable ∘ report_row history_df payments_df
                       <$> listed history_df payments_df l))%Qc.
Proof.
  revert acc. induction l as [|p l IH]; intros acc.
  - destruct acc. cbn [foldl]. unfold listed, series_sum.
    cbn [filter list_filter fmap list_fmap foldr detailed_list
         outstanding_parties total_rec total_pay].
    rewrite !app_nil_r. f_equal; ring.
  - cbn [foldl]. rewrite IH. unfold listed. rewrite filter_cons.
    unfold credit_step. case_decide; [|done].
    cbn [detailed_list outstanding_parties total_rec total_pay
         fmap list_fmap].
    rewrite <-!app_assoc. cbn [app]. unfold series_sum. cbn [foldr compose].
    f_equal; unfold report_row;
      cbn [br_pending_receivable br_pending_payable]; ring.
Qed.

Lemma credit_balances_listed :
  let l := listed history_df payments_df (all_p_list history_df) in
  credit_balances history_df payments_df =
    CreditPage
      (report_row history_df payments_df <$> l)
      l
      (series_sum (br_pending_receivable ∘ report_row history_df payments_df <$> l))
      (series_sum (br_pending_payable ∘ report_row history_df payments_df <$> l)).
Proof.
  intros l. subst l.
  assert (credit_balances history_df payments_df =
    foldl (credit_step history_df payments_df) (CreditPage [] [] 0%Qc 0%Qc)
          (all_p_list history_df)) as ->.
  { unfold credit_balances. by destruct history_df. }
  rewrite credit_loop.
  cbn [detailed_list outstanding_parties total_rec total_pay app].
  f_equal; ring.
Qed.
End loop.

Lemma series_sum_nonneg (l : list Qc) :
  Forall (λ x, (0 ≤ x)%Qc) l → (0 ≤ series_sum l)%Qc.
Proof.
  unfold series_sum. induction 1 as [|x l Hx _ IH]; cbn [foldr].
  - apply Qcle_refl.
  - rewrite <-(Qcplus_0_l 0). by apply Qcplus_le_compat.
Qed.

Lemma party_in_history (d : db) (p : string) :
  (∃ r, r ∈ load_transactions d ∧ t_party_name r.2 = p) ↔
  (∃ rid t, transactions d !! rid = Some t ∧ t_party_name t = p).
Proof.
  unfold load_transactions. split.
  - intros ([rid t] & Hr & Hp). exists rid, t. split; [|done].
    rewrite order_by_id_desc_perm in Hr. by apply elem_of_map_to_list.
  - intros (rid & t & Hr & Hp). exists (rid, t). split; [|done].
    rewrite order_by_id_desc_perm. by apply elem_of_map_to_list.
Qed.

(** C4 as stated fails: a party known only from a payment of negative
    amount has a net payable above 0.01 and is not listed, because the page
    goes through the parties of the transaction log and there is none. *)
Lemma payments_only_party_is_not_listed :
  let d := insert_payment walk_in_refund init_db in
  net_payable (load_transactions d) (load_payments d) "Walk-in" =
    Q2Qc (5 # 1) ∧
  (epsilon < net_payable (load_transactions d) (load_payments d) "Walk-in")%Qc ∧
  outstanding_parties (stock_credit_page d) = [] ∧
  ¬ ("Walk-in" ∈ outstanding_parties (stock_credit_page d) ↔
     (epsilon < net_receivable (load_transactions d) (load_payments d)
                  "Walk-in")%Qc ∨
     (epsilon < net_payable (load_transactions d) (load_payments d)
                  "Walk-in")%Qc).
Proof.
  intros d.
  assert (net_payable (load_transactions d) (load_payments d) "Walk-in" =
            Q2Qc (5 # 1)) as Hnet by qc_eq.
  assert (epsilon < net_payable (load_transactions d) (load_payments d)
                      "Walk-in")%Qc as Hout by (rewrite Hnet; reflexivity).
  assert (outstanding_parties (stock_credit_page d) = []) as Hnone by reflexivity.
  split; [exact Hnet|]. split; [exact Hout|]. split; [exact Hnone|].
  rewrite Hnone. intros [_ Hin]. specialize (Hin (or_intror Hout)).
  by apply elem_of_nil in Hin.
Qed.

(** C4, amended -- on every database the page lists a party exactly when it
    has a transaction in the log and its net receivable or its net payable
    exceeds 0.01, once each; the row of a listed party carries the net
    receivable where that is positive and 0 otherwise, and likewise the net
    payable, so neither value is negative; and the two totals are the sums
    of those row values over the listed parties. *)
Theorem outstanding_report (d : db) :
  let page := stock_credit_page d in
  let nr := net_receivable (load_transactions d) (load_payments d) in
  let np := net_payable (load_transactions d) (load_payments d) in
  detailed_list page =
    (λ p, BalanceRow p (if decide (0 < nr p)%Qc then nr p else 0%Qc)
                       (if decide (0 < np p)%Qc then np p else 0%Qc))
      <$> outstanding_parties page ∧
  Forall (λ row, (0 ≤ br_pending_receivable row)%Qc ∧
                 (0 ≤ br_pending_payable row)%Qc) (detailed_list page) ∧
  (∀ p, p ∈ outstanding_parties page ↔
        (∃ rid t, transactions d !! rid = Some t ∧ t_party_name t = p) ∧
        ((epsilon < nr p)%Qc ∨ (epsilon < np p)%Qc)) ∧
  NoDup (outstanding_parties page) ∧
  total_rec page = series_sum (br_pending_receivable <$> detailed_list page) ∧
  total_pay page = series_sum (br_pending_payable <$> detailed_list page) ∧
  (0 ≤ total_rec page)%Qc ∧ (0 ≤ total_pay page)%Qc.
Proof.
  intros page nr np. subst page. unfold stock_credit_page.
  rewrite credit_balances_listed.
  cbn [detailed_list outstanding_parties total_rec total_pay].
  set (l := listed _ _ _).
  change (report_row (load_transactions d) (load_payments d))
    with (λ p, BalanceRow p (if decide (0 < nr p)%Qc then nr p else 0%Qc)
                            (if decide (0 < np p)%Qc then np p else 0%Qc)).
  assert (∀ x : Qc, (0 ≤ if decide (0 < x)%Qc then x else 0%Qc)%Qc) as Hclamp.
  { intros x. exact (max0_nonneg x). }
  assert (Forall (λ row, (0 ≤ br_pending_receivable row)%Qc ∧
                         (0 ≤ br_pending_payable row)%Qc)
            ((λ p, BalanceRow p (if decide (0 < nr p)%Qc then nr p else 0%Qc)
                                (if decide (0 < np p)%Qc then np p else 0%Qc))
               <$> l)) as Hpos.
  { apply Forall_fmap, Forall_forall. intros p _.
    split; apply Hclamp. }
  split; [done|]. split; [exact Hpos|].
  split; [|split; [|split; [|split; [|split]]]].
  - intros p. subst l. unfold listed.
    rewrite list_elem_of_filter, elem_of_all_p_list, party_in_history.
    unfold is_outstanding. fold nr np. tauto.
  - subst l. apply NoDup_filter, NoDup_all_p_list.
  - by rewrite <-list_fmap_compose.
  - by rewrite <-list_fmap_compose.
  - apply series_sum_nonneg, Forall_fmap, Forall_forall. intros p _.
    apply Hclamp.
  - apply series_sum_nonneg, Forall_fmap, Forall_forall. intros p _.
    apply Hclamp.
Qed.

(** ** Parties outside the transaction log *)

Lemma billed_outsider (mode_ok : string → Prop) `{!∀ s, Decision (mode_ok s)}
    (ttype p : string) (t : gmap Z transaction) :
  (∀ rid x, t !! rid = Some x → t_party_name x ≠ p) →
  billed mode_ok ttype p t = 0%Qc.
Proof.
  intros Hno. unfold billed.
  destruct (filter _ (map_to_list t)) as [|[rid x] l] eqn:E; [done|].
  assert ((rid, x) ∈ (rid, x) :: l) as Hin by by left.
  rewrite <-E in Hin. apply list_elem_of_filter in Hin as [(_ & Hp & _) Hin].
  apply elem_of_map_to_list in Hin. by apply Hno in Hin.
Qed.

Lemma settled_nonneg (ptype p : string) (t : gmap Z payment) :
  (∀ rid x, t !! rid = Some x → (0 ≤ p_amount x)%Qc) →
  (0 ≤ settled ptype p t)%Qc.
Proof.
  intros Hpos. unfold settled.
  apply series_sum_nonneg, Forall_fmap, Forall_forall.
  intros [rid x] [_ Hin]%list_elem_of_filter.
  apply elem_of_map_to_list in Hin. by apply Hpos in Hin.
Qed.

Lemma epsilon_pos (x : Qc) : (x ≤ 0)%Qc → ¬ (epsilon < x)%Qc.
Proof.
  intros Hx Heps. assert (epsilon < 0)%Qc as H by by eapply Qclt_le_trans.
  by vm_compute in H.
Qed.

(** While payment amounts are not negative, a party without any transaction
    has nothing outstanding, so leaving it out of the loop loses nothing. *)
Lemma outsider_not_outstanding (d : db) (p : string) :
  (∀ rid x, transactions d !! rid = Some x → t_party_name x ≠ p) →
  (∀ rid x, payments d !! rid = Some x → (0 ≤ p_amount x)%Qc) →
  ¬ is_outstanding (load_transactions d) (load_payments d) p.
Proof.
  intros Hno Hpos.
  assert (∀ s : Qc, (0 ≤ s)%Qc → (0 - s ≤ 0)%Qc) as Hneg.
  { intros s Hs. apply Qcopp_le_compat in Hs.
    by replace (0 - s)%Qc with (- s)%Qc by ring. }
  unfold is_outstanding, net_receivable, net_payable, b_sale, b_pur, r_pay, p_pay.
  rewrite !billed_from_history, !settled_from_payments.
  rewrite !billed_outsider by done.
  intros [H|H]; revert H; by apply epsilon_pos, Hneg, settled_nonneg.
Qed.


(** * Further properties of the helpers *)

(** ** Batch deletes of transactions *)

Lemma delete_loop_locked_file (ids : list Z) (f v : db) :
  ∃ v', world_of (delete_loop Transactions ids (World f (Some v))) =
          World f (Some v').
Proof.
  revert v. induction ids as [|rid ids IH]; intros v; [by exists v|].
  rewrite delete_loop_cons.
  destruct (transactions v !! rid) as [row|] eqn:Hrow.
  - rewrite (reverse_stock_locked_present _ _ _ row) by done. by exists v.
  - rewrite reverse_stock_missing by done. rewrite execute_delete_locked.
    apply IH.
Qed.

Lemma delete_loop_locked_ok_iff (ids : list Z) (f v : db) :
  (∃ w', delete_loop Transactions ids (World f (Some v)) = Ok w') ↔
  Forall (λ rid, transactions v !! rid = None) ids.
Proof.
  split.
  - induction ids as [|rid ids IH]; intros [w' Hw']; [constructor|].
    rewrite delete_loop_cons in Hw'.
    destruct (transactions v !! rid) as [row|] eqn:Hrow.
    + by rewrite (reverse_stock_locked_present _ _ _ row) in Hw'.
    + rewrite reverse_stock_missing, execute_delete_locked in Hw' by done.
      rewrite delete_row_absent in Hw' by done.
      constructor; [done|]. apply IH. by exists w'.
  - intros Hids. eexists. by apply delete_loop_locked_missing.
Qed.

(** After the first id the loop runs with the row of that id gone and the
    write lock taken, whether the id was there or not. *)
Lemma delete_loop_first (a : Z) (rest : list Z) (d : db) :
  delete_loop Transactions (a :: rest) (idle d) =
    match transactions d !! a with
    | Some row =>
        delete_loop Transactions rest
          (World (reversed row d)
                 (Some (delete_row Transactions a (reversed row d))))
    | None => delete_loop Transactions rest (World d (Some d))
    end.
Proof.
  rewrite delete_loop_cons.
  destruct (transactions d !! a) as [row|] eqn:Hrow.
  - by rewrite (reverse_stock_idle_present _ _ row), execute_delete_idle.
  - rewrite reverse_stock_missing by done.
    by rewrite execute_delete_idle, delete_row_absent.
Qed.

(** A batch delete of transactions returns normally exactly when no id after
    the first one names a record that is still there: every later id must be
    stale or a repetition of the first. *)
Theorem batch_delete_returns_iff (a : Z) (rest : list Z) (d : db) :
  (∃ d', delete_records Transactions (a :: rest) d = Returned d') ↔
  Forall (λ r, r = a ∨ transactions d !! r = None) rest.
Proof.
  assert (∀ row, Forall (λ r, transactions
              (delete_row Transactions a (reversed row d)) !! r = None) rest ↔
            Forall (λ r, r = a ∨ transactions d !! r = None) rest) as Hgone.
  { intros row. apply Forall_proper; [|done]. intros r.
    cbn [delete_row reversed with_stock_summary transactions].
    destruct (decide (r = a)) as [->|Hne].
    - rewrite lookup_delete_eq. tauto.
    - rewrite lookup_delete_ne by done. tauto. }
  unfold delete_records. rewrite delete_loop_first.
  destruct (transactions d !! a) as [row|] eqn:Hrow.
  - rewrite <-(Hgone row), <-(delete_loop_locked_ok_iff rest (reversed row d)).
    split.
    + intros [d' Hd']. destruct (delete_loop _ _ _) as [w|e w]; [by exists w|done].
    + intros [w' ->]. by eexists.
  - assert (Forall (λ r, r = a ∨ transactions d !! r = None) rest ↔
            Forall (λ r, transactions d !! r = None) rest) as ->.
    { apply Forall_proper; [|done]. intros r. split; [|tauto].
      by intros [->|?]. }
    rewrite <-(delete_loop_locked_ok_iff rest d d). split.
    + intros [d' Hd']. destruct (delete_loop _ _ _) as [w|e w]; [by exists w|done].
    + intros [w' ->]. by eexists.
Qed.

(** When a batch delete of transactions raises, no row of any table has been
    removed, and the ledger is either untouched or carries the reversal of
    the first id alone. *)
Theorem batch_delete_failure_state (ids : list Z) (d d' : db) (e : error) :
  delete_records Transactions ids d = Raised e d' →
  (transactions d', expenses d', payments d') =
    (transactions d, expenses d, payments d) ∧
  (d' = d ∨
   ∃ a rest row, ids = a :: rest ∧ transactions d !! a = Some row ∧
                 d' = reversed row d).
Proof.
  unfold delete_records. destruct ids as [|a rest]; [done|].
  rewrite delete_loop_first.
  destruct (transactions d !! a) as [row|] eqn:Hrow.
  - destruct (delete_loop_locked_file rest (reversed row d)
                (delete_row Transactions a (reversed row d))) as [v' Hv'].
    destruct (delete_loop _ _ _) as [w|e' w]; [done|].
    cbn [world_of] in Hv'. subst w. cbn [file]. intros [= <-].
    split; [done|]. right. by exists a, rest, row.
  - destruct (delete_loop_locked_file rest d d) as [v' Hv'].
    destruct (delete_loop _ _ _) as [w|e' w]; [done|].
    cbn [world_of] in Hv'. subst w. cbn [file]. intros [= <-].
    split; [done|]. by left.
Qed.

Lemma batch_delete_failure_state_witness :
  delete_records Transactions [1; 2] after_sale =
    Raised OperationalError_database_is_locked (reversed purchase_100 after_sale) ∧
  ((transactions (reversed purchase_100 after_sale),
    expenses (reversed purchase_100 after_sale),
    payments (reversed purchase_100 after_sale)) =
     (transactions after_sale, expenses after_sale, payments after_sale) ∧
   (reversed purchase_100 after_sale = after_sale ∨
    ∃ a rest row, [1; 2] = a :: rest ∧ transactions after_sale !! a = Some row ∧
                  reversed purchase_100 after_sale = reversed row after_sale)).
Proof.
  assert (delete_records Transactions [1; 2] after_sale =
    Raised OperationalError_database_is_locked (reversed purchase_100 after_sale))
    as H by reflexivity.
  split; [exact H|]. exact (batch_delete_failure_state _ _ _ _ H).
Defined.

(** The delete tool hands over the ids of rows that exist, without
    repetition.  With two or more transactions selected the call raises:
    only the stock of the first one is reversed and every row stays. *)
Theorem delete_tool_selection_raises (ids : list Z) (d : db) :
  NoDup ids →
  Forall (λ rid, is_Some (transactions d !! rid)) ids →
  (2 ≤ length ids)%nat →
  ∃ a row, head ids = Some a ∧ transactions d !! a = Some row ∧
    delete_records Transactions ids d =
      Raised OperationalError_database_is_locked (reversed row d) ∧
    transactions (reversed row d) = transactions d.
Proof.
  intros Hnd Hall Hlen.
  destruct ids as [|a [|b rest]]; cbn [length] in Hlen; [lia..|].
  apply Forall_cons in Hall as [[row_a Ha] Hall].
  apply Forall_cons in Hall as [[row_b Hb] _].
  apply NoDup_cons in Hnd as [Hab _].
  exists a, row_a. split; [done|]. split; [done|]. split; [|done].
  apply (delete_records_two_present a b rest d row_a row_b); [|done..].
  intros ->. apply Hab. by left.
Qed.

Lemma delete_tool_selection_raises_witness :
  NoDup [1; 2] ∧
  Forall (λ rid, is_Some (transactions after_sale !! rid)) [1; 2] ∧
  (2 ≤ length [1; 2])%nat ∧
  ∃ a row, head [1; 2] = Some a ∧ transactions after_sale !! a = Some row ∧
    delete_records Transactions [1; 2] after_sale =
      Raised OperationalError_database_is_locked (reversed row after_sale) ∧
    transactions (reversed row after_sale) = transactions after_sale.
Proof.
  assert (NoDup [1; 2]) as H1
    by (apply NoDup_cons; split;
        [rewrite list_elem_of_singleton; lia | apply NoDup_singleton]).
  assert (Forall (λ rid, is_Some (transactions after_sale !! rid)) [1; 2]) as H2
    by (repeat constructor; by eexists).
  assert (2 ≤ length [1; 2])%nat as H3 by (cbn; lia).
  split; [exact H1|]. split; [exact H2|]. split; [exact H3|].
  exact (delete_tool_selection_raises [1; 2] after_sale H1 H2 H3).
Defined.

(** A batch that names only ids without a row returns and changes nothing:
    no stock is posted and no table is touched. *)
Theorem stale_ids_only_change_nothing (ids : list Z) (d : db) :
  Forall (λ rid, transactions d !! rid = None) ids →
  delete_records Transactions ids d = Returned d.
Proof.
  intros Hids. unfold delete_records.
  destruct ids as [|rid ids]; [done|].
  apply Forall_cons in Hids as [Hrid Hids].
  rewrite delete_loop_first, Hrid.
  by rewrite delete_loop_locked_missing.
Qed.

Lemma stale_ids_only_change_nothing_witness :
  Forall (λ rid, transactions after_sale !! rid = None) [7; 99; 7] ∧
  delete_records Transactions [7; 99; 7] after_sale = Returned after_sale.
Proof.
  assert (Forall (λ rid, transactions after_sale !! rid = None) [7; 99; 7]) as H
    by (repeat constructor).
  split; [exact H|]. exact (stale_ids_only_change_nothing _ _ H).
Defined.

(** Deleting a transaction is idempotent: naming its id twice in one batch
    reverses its stock once, and deleting it again in a second call is a
    no-op. *)
Theorem delete_transaction_once (a : Z) (d : db) :
  delete_records Transactions [a; a] d = delete_records Transactions [a] d ∧
  delete_records Transactions [a]
    (final (delete_records Transactions [a] d)) =
    Returned (final (delete_records Transactions [a] d)).
Proof.
  destruct (transactions d !! a) as [row|] eqn:Hrow.
  - rewrite (delete_records_present_then_missing a [a] d row) by
      (done || (constructor; [by left | constructor])).
    rewrite (delete_records_present_then_missing a [] d row) by
      (done || constructor).
    split; [done|]. cbn [final]. apply delete_records_all_missing.
    constructor; [|constructor].
    cbn [delete_row reversed with_stock_summary transactions].
    apply lookup_delete_eq.
  - rewrite !delete_records_all_missing by (repeat constructor; done).
    done.
Qed.

(** ** Deleting expenses and payments *)

Lemma lookup_delete_list {A} (ids : list Z) (t : gmap Z A) (i : Z) :
  foldl (λ acc rid, delete rid acc) t ids !! i =
    if decide (i ∈ ids) then None else t !! i.
Proof.
  revert t. induction ids as [|rid ids IH]; intros t; cbn [foldl].
  - by rewrite decide_False by apply not_elem_of_nil.
  - rewrite IH. destruct (decide (i = rid)) as [->|Hne].
    + rewrite lookup_delete_eq, (decide_True (P := rid ∈ rid :: ids)) by by left.
      by case_decide.
    + rewrite lookup_delete_ne by done.
      destruct (decide (i ∈ ids)) as [Hin|Hnin].
      * by rewrite decide_True by by right.
      * rewrite decide_False; [done|]. by intros [?|?]%elem_of_cons.
Qed.

(** A batch delete on expenses or payments never fails and removes exactly
    the rows whose id is in the list: listed ids are gone, whether or not
    they existed and however often they are named, and every other row is
    kept as it was. *)
Theorem delete_expenses_payments_lookup (ids : list Z) (d : db) (i : Z) :
  (∃ d', delete_records Expenses ids d = Returned d' ∧
         expenses d' !! i = if decide (i ∈ ids) then None else expenses d !! i) ∧
  (∃ d', delete_records Payments ids d = Returned d' ∧
         payments d' !! i = if decide (i ∈ ids) then None else payments d !! i).
Proof.
  split; eexists; (split; [by apply delete_records_no_reversal|]).
  - rewrite delete_all_expenses. apply lookup_delete_list.
  - rewrite delete_all_payments. apply lookup_delete_list.
Qed.

(** ** What every sequence of calls preserves *)

Section preserved.
Variable P : db → Prop.
Hypothesis P_delete_row : ∀ t rid x, P x → P (delete_row t rid x).
Hypothesis P_upsert : ∀ k q x,
  P x → P (with_stock_summary (stock_upsert k q (stock_summary x)) x).
Hypothesis P_insert_row : ∀ data x, P x → P (insert_transaction_row data x).

Lemma delete_loop_preserves (table : table_name) (ids : list Z) (w : world) :
  P (file w) → P (conn_view w) →
  P (file (world_of (delete_loop table ids w))) ∧
  P (conn_view (world_of (delete_loop table ids w))).
Proof.
  revert w. induction ids as [|rid ids IH]; intros w Hf Hv; [done|].
  rewrite delete_loop_cons.
  assert (match reverse_stock table rid w with
          | Ok w1 => P (file w1) ∧ P (conn_view w1)
          | Raise _ w1 => P (file w1) ∧ P (conn_view w1)
          end) as Hrev.
  { unfold reverse_stock. destruct table; [|done..].
    destruct (transactions (conn_view w) !! rid) as [row|]; [|done].
    unfold update_stock. destruct w as [f [v|]]; [done|].
    cbn [open_txn file idle conn_view] in *. auto. }
  destruct (reverse_stock table rid w) as [w1|e w1]; [|done].
  destruct Hrev as [Hf1 Hv1]. apply IH; [done|].
  unfold execute_delete, conn_view at 1. cbn [open_txn]. auto.
Qed.

Lemma delete_records_preserves (table : table_name) (ids : list Z) (d : db) :
  P d → P (final (delete_records table ids d)).
Proof.
  intros Hd. unfold delete_records.
  destruct (delete_loop_preserves table ids (idle d) Hd Hd) as [Hf Hv].
  by destruct (delete_loop table ids (idle d)).
Qed.

Lemma apply_operation_preserves (o : operation) (d : db) :
  P d → P (final (apply_operation o d)).
Proof.
  intros Hd. destruct o as [data|table ids]; cbn [apply_operation].
  - rewrite insert_transaction_returns. cbn [final].
    apply (P_upsert (key_of data) (t_quantity data)
             (insert_transaction_row data d)), P_insert_row, Hd.
  - by apply delete_records_preserves.
Qed.

Lemma run_preserves (ops : list operation) (d : db) : P d → P (run ops d).
Proof.
  revert d. induction ops as [|o ops IH]; intros d Hd; [done|].
  unfold run. cbn [foldl]. by apply IH, apply_operation_preserves.
Qed.
End preserved.

(** An id given to a transaction is never given again: whatever calls
    follow the insert, deletes of that very record and failing batches
    included, the next id handed out is larger. *)
Theorem transaction_ids_never_reused (data : transaction) (ops : list operation)
    (d : db) :
  let rid := autoincrement (transactions d) (transactions_seq d) in
  let later := run ops (final (insert_transaction data d)) in
  rid < autoincrement (transactions later) (transactions_seq later).
Proof.
  intros rid later.
  assert (rid ≤ transactions_seq later) as Hseq; [|unfold autoincrement; lia].
  subst later. apply (run_preserves (λ x, rid ≤ transactions_seq x)).
  - intros t i x Hx. by destruct t.
  - done.
  - intros data' x Hx. cbn [insert_transaction_row transactions_seq].
    unfold autoincrement. lia.
  - rewrite insert_transaction_returns.
    cbn [final with_stock_summary insert_transaction_row transactions_seq].
    done.
Qed.

(** No call ever removes a row of the stock ledger: a key that has a row
    keeps one through every sequence of inserts and deletes, also when the
    stock returns to zero and when a batch delete fails. *)
Theorem stock_rows_never_removed (ops : list operation) (d : db) :
  dom (stock_summary d) ⊆ dom (stock_summary (run ops d)).
Proof.
  apply (run_preserves (λ x, dom (stock_summary d) ⊆ dom (stock_summary x))).
  - intros t i x Hx. by destruct t.
  - intros k q x Hx. cbn [with_stock_summary stock_summary].
    rewrite stock_upsert_dom. set_solver.
  - done.
  - done.
Qed.

(** ** Building and saving a bill *)

Lemma current_stock_insert (k : stock_key) (data : transaction) (d : db) :
  current_stock k (final (insert_transaction data d)) =
    if decide (k = key_of data) then (current_stock k d + t_quantity data)%Qc
    else current_stock k d.
Proof.
  rewrite insert_transaction_returns. cbn [final].
  unfold current_stock. cbn [with_stock_summary stock_summary].
  rewrite stock_upsert_lookup. case_decide; [by subst|done].
Qed.

(** "Save Bill" moves the stock of every key by the sum of the signed
    quantities of the cart lines with that key, in whatever order the lines
    were added. *)
Theorem save_bill_posts_cart (now : string) (cart : list cart_entry) (d : db)
    (k : stock_key) :
  current_stock k (save_bill now cart d) =
    (current_stock k d +
     series_sum (c_quantity <$>
       filter (λ e, (c_category e, c_item_type e, c_unit e) = k) cart))%Qc.
Proof.
  revert d. induction cart as [|e cart IH]; intros d.
  - unfold series_sum. cbn [save_bill foldl filter list_filter fmap list_fmap foldr].
    ring.
  - unfold save_bill in *. cbn [foldl]. rewrite IH, current_stock_insert.
    rewrite filter_cons. unfold key_of.
    cbn [cart_row t_category t_item_type t_unit t_quantity].
    destruct (decide (k = (c_category e, c_item_type e, c_unit e))) as [->|Hne].
    + rewrite decide_True by done. unfold series_sum.
      cbn [fmap list_fmap foldr]. ring.
    + by rewrite decide_False by done.
Qed.

Lemma max_rowid_le {A} (t : gmap Z A) (n : Z) :
  0 ≤ n → (∀ i x, t !! i = Some x → i ≤ n) → max_rowid t ≤ n.
Proof.
  intros Hn Hall. unfold max_rowid.
  assert (Forall (λ i, i ≤ n) ((map_to_list t).*1)) as Hl.
  { apply Forall_fmap, Forall_forall. intros [i x] Hi%elem_of_map_to_list.
    by apply (Hall i x). }
  induction Hl as [|i l Hi _ IH]; cbn [foldr]; lia.
Qed.

Lemma max_rowid_nonneg {A} (t : gmap Z A) : 0 ≤ max_rowid t.
Proof.
  unfold max_rowid. induction ((map_to_list t).*1) as [|i l IH]; cbn [foldr]; lia.
Qed.

(** Right after an insert the next id is the inserted one plus one. *)
Lemma autoincrement_next {A} (t : gmap Z A) (seq : Z) (x : A) :
  autoincrement (<[autoincrement t seq := x]> t) (autoincrement t seq) =
    autoincrement t seq + 1.
Proof.
  set (n := autoincrement t seq).
  assert (max_rowid (<[n := x]> t) ≤ n) as Hle.
  { apply max_rowid_le.
    - pose proof (max_rowid_nonneg t). subst n. unfold autoincrement. lia.
    - intros i y. destruct (decide (i = n)) as [->|Hne]; [lia|].
      rewrite lookup_insert_ne by done. intros Hi.
      apply (autoincrement_gt t seq) in Hi. subst n. lia. }
  unfold autoincrement at 1. lia.
Qed.

(** "Save Bill" stores the cart lines under consecutive new ids in cart
    order, so the history afterwards shows them last line first, above all
    the rows it showed before. *)
Theorem save_bill_history (now : string) (cart : list cart_entry) (d : db) :
  let first := autoincrement (transactions d) (transactions_seq d) in
  load_transactions (save_bill now cart d) =
    reverse (imap (λ i e, (first + Z.of_nat i, cart_row now e)) cart)
      ++ load_transactions d.
Proof.
  revert d. induction cart as [|e cart IH]; intros d first; [done|].
  unfold save_bill in *. cbn [foldl]. rewrite IH. clear IH.
  rewrite insert_transaction_returns.
  cbn [final with_stock_summary insert_transaction_row transactions
       transactions_seq].
  fold first. unfold load_transactions at 1.
  cbn [with_stock_summary insert_transaction_row transactions]. fold first.
  subst first. rewrite order_by_id_desc_insert.
  fold (load_transactions d). rewrite autoincrement_next.
  cbn [imap]. rewrite reverse_cons, <-app_assoc. cbn [app].
  rewrite Z.add_0_r. f_equal. f_equal. apply imap_ext.
  intros i x _. cbn. f_equal. lia.
Qed.

Lemma Qcmult_nonneg (x y : Qc) : (0 ≤ x)%Qc → (0 ≤ y)%Qc → (0 ≤ x * y)%Qc.
Proof.
  intros Hx Hy. replace 0%Qc with (x * 0)%Qc at 1 by ring.
  by apply Qcmult_le_mono_nonneg_l.
Qed.

(** "Add Item to Bill" with a party name, a positive quantity and a rate
    that is not negative appends one line whose quantity is the entered one,
    positive for a purchase and negative for everything else, and whose
    amount is the unsigned quantity times the rate. *)
Theorem add_item_signs_quantity (party_name site_name vehicle cat item unit
    t_type : string) (qty rate : Qc) (pay_mode remarks : string)
    (cart : list cart_entry) :
  party_name ≠ "" → (0 < qty)%Qc → (0 ≤ rate)%Qc →
  ∃ e,
    add_item_to_bill party_name site_name vehicle cat item unit t_type qty
      rate pay_mode remarks cart = cart ++ [e] ∧
    c_party_name e = party_name ∧
    c_transaction_type e = t_type ∧
    ((0 < c_quantity e)%Qc ↔ t_type = "purchase") ∧
    ((c_quantity e < 0)%Qc ↔ t_type ≠ "purchase") ∧
    Qcabs (c_quantity e) = qty ∧
    c_amount e = (Qcabs (c_quantity e) * rate)%Qc ∧
    (0 ≤ c_amount e)%Qc.
Proof.
  intros Hparty Hqty Hrate. unfold add_item_to_bill.
  rewrite decide_False by done. eexists. split; [done|].
  cbn [c_party_name c_transaction_type c_quantity c_amount].
  assert (- qty < 0)%Qc as Hneg.
  { apply Qclt_minus_iff. by replace (0 + - - qty)%Qc with qty by ring. }
  split; [done|]. split; [done|].
  destruct (decide (t_type = "purchase")) as [Ht|Ht].
  - split; [tauto|]. split.
    + split; [|done]. intros Hlt.
      destruct (Qclt_not_le _ _ Hlt (Qclt_le_weak _ _ Hqty)).
    + rewrite Qcabs_pos by by apply Qclt_le_weak.
      split; [done|]. split; [done|].
      apply Qcmult_nonneg; [by apply Qclt_le_weak | done].
  - split.
    + split; [|done]. intros Hlt.
      destruct (Qclt_not_le _ _ Hlt (Qclt_le_weak _ _ Hneg)).
    + split; [tauto|]. rewrite Qcabs_neg by by apply Qclt_le_weak.
      rewrite Qcopp_involutive.
      split; [done|]. split; [done|].
      apply Qcmult_nonneg; [by apply Qclt_le_weak | done].
Qed.

Lemma add_item_signs_quantity_witness :
  "ABC Traders" ≠ "" ∧ (0 < Q2Qc (40 # 1))%Qc ∧ (0 ≤ Q2Qc (350 # 1))%Qc ∧
  ∃ e,
    add_item_to_bill "ABC Traders" "Site 1" "" "Cement" "JK Strong" "bag"
      "sale" (Q2Qc (40 # 1)) (Q2Qc (350 # 1)) "credit" "" [] = [] ++ [e] ∧
    c_party_name e = "ABC Traders" ∧
    c_transaction_type e = "sale" ∧
    ((0 < c_quantity e)%Qc ↔ "sale" = "purchase") ∧
    ((c_quantity e < 0)%Qc ↔ "sale" ≠ "purchase") ∧
    Qcabs (c_quantity e) = Q2Qc (40 # 1) ∧
    c_amount e = (Qcabs (c_quantity e) * Q2Qc (350 # 1))%Qc ∧
    (0 ≤ c_amount e)%Qc.
Proof.
  assert ("ABC Traders" ≠ "") as H1 by discriminate.
  assert (0 < Q2Qc (40 # 1))%Qc as H2 by reflexivity.
  assert (0 ≤ Q2Qc (350 # 1))%Qc as H3 by discriminate.
  split; [exact H1|]. split; [exact H2|]. split; [exact H3|].
  exact (add_item_signs_quantity "ABC Traders" "Site 1" "" "Cement" "JK Strong"
           "bag" "sale" (Q2Qc (40 # 1)) (Q2Qc (350 # 1)) "credit" "" []
           H1 H2 H3).
Defined.

(** ** How the logs move the balances *)

Lemma billed_insert (mode_ok : string → Prop) `{!∀ s, Decision (mode_ok s)}
    (ttype p : string) (t : gmap Z transaction) (i : Z) (x : transaction) :
  t !! i = None →
  billed mode_ok ttype p (<[i := x]> t) =
    (billed mode_ok ttype p t +
     if decide (mode_ok (t_cash_credit x) ∧ t_party_name x = p ∧
                t_transaction_type x = ttype)
     then t_amount x else 0)%Qc.
Proof.
  intros Hi. unfold billed.
  rewrite (series_sum_perm _ ((t_amount ∘ snd) <$>
    filter (λ r, mode_ok (t_cash_credit r.2) ∧ t_party_name r.2 = p ∧
                 t_transaction_type r.2 = ttype) ((i, x) :: map_to_list t))).
  2:{ apply fmap_Permutation, filter_Permutation. by apply map_to_list_insert. }
  rewrite filter_cons. cbn [snd]. unfold series_sum.
  case_decide; cbn [fmap list_fmap foldr compose snd]; ring.
Qed.

Lemma billed_delete (mode_ok : string → Prop) `{!∀ s, Decision (mode_ok s)}
    (ttype p : string) (t : gmap Z transaction) (i : Z) (x : transaction) :
  t !! i = Some x →
  billed mode_ok ttype p (delete i t) =
    (billed mode_ok ttype p t -
     if decide (mode_ok (t_cash_credit x) ∧ t_party_name x = p ∧
                t_transaction_type x = ttype)
     then t_amount x else 0)%Qc.
Proof.
  intros Hi.
  pose proof (billed_insert mode_ok ttype p (delete i t) i x
                (lookup_delete_eq t i)) as Hins.
  rewrite (insert_delete_id t i x Hi) in Hins. rewrite Hins. ring.
Qed.

Lemma settled_insert (ptype p : string) (t : gmap Z payment) (i : Z)
    (x : payment) :
  t !! i = None →
  settled ptype p (<[i := x]> t) =
    (settled ptype p t +
     if decide (p_party_name x = p ∧ p_payment_type x = ptype)
     then p_amount x else 0)%Qc.
Proof.
  intros Hi. unfold settled.
  rewrite (series_sum_perm _ ((p_amount ∘ snd) <$>
    filter (λ r, p_party_name r.2 = p ∧ p_payment_type r.2 = ptype)
           ((i, x) :: map_to_list t))).
  2:{ apply fmap_Permutation, filter_Permutation. by apply map_to_list_insert. }
  rewrite filter_cons. cbn [snd]. unfold series_sum.
  case_decide; cbn [fmap list_fmap foldr compose snd]; ring.
Qed.

Lemma balances_from_tables (d : db) (p : string) :
  net_receivable (load_transactions d) (load_payments d) p =
    (billed credit_any_case "sale" p (transactions d)
     - settled "Inward" p (payments d))%Qc ∧
  net_payable (load_transactions d) (load_payments d) p =
    (billed credit_any_case "purchase" p (transactions d)
     - settled "Outward" p (payments d))%Qc.
Proof.
  unfold net_receivable, net_payable, b_sale, b_pur, r_pay, p_pay.
  by rewrite !billed_from_history, !settled_from_payments.
Qed.

(** Recording a payment lowers the party's net receivable by its amount when
    it is "Inward" and the party's net payable when it is "Outward"; it moves
    no other party's balance, and a payment of any other type moves none. *)
Theorem payment_moves_balance (pay : payment) (d : db) (p : string) :
  let d' := insert_payment pay d in
  net_receivable (load_transactions d') (load_payments d') p =
    (net_receivable (load_transactions d) (load_payments d) p -
     if decide (p_party_name pay = p ∧ p_payment_type pay = "Inward")
     then p_amount pay else 0)%Qc ∧
  net_payable (load_transactions d') (load_payments d') p =
    (net_payable (load_transactions d) (load_payments d) p -
     if decide (p_party_name pay = p ∧ p_payment_type pay = "Outward")
     then p_amount pay else 0)%Qc.
Proof.
  intros d'. subst d'.
  destruct (balances_from_tables (insert_payment pay d) p) as [-> ->].
  destruct (balances_from_tables d p) as [-> ->].
  cbn [insert_payment transactions payments].
  rewrite !settled_insert by apply autoincrement_fresh.
  split; ring.
Qed.

(** Inserting a transaction raises the party's net receivable by its amount
    when it is a sale on credit (in any letter case) and the party's net
    payable when it is a purchase on credit; a cash transaction, and a
    transaction of another party, moves neither. *)
Theorem transaction_moves_balance (data : transaction) (d : db) (p : string) :
  let d' := final (insert_transaction data d) in
  let on_credit ttype :=
    if decide (lower (t_cash_credit data) = "credit" ∧ t_party_name data = p ∧
               t_transaction_type data = ttype)
    then t_amount data else 0%Qc in
  net_receivable (load_transactions d') (load_payments d') p =
    (net_receivable (load_transactions d) (load_payments d) p
     + on_credit "sale")%Qc ∧
  net_payable (load_transactions d') (load_payments d') p =
    (net_payable (load_transactions d) (load_payments d) p
     + on_credit "purchase")%Qc.
Proof.
  intros d' on_credit. subst d' on_credit.
  destruct (balances_from_tables (final (insert_transaction data d)) p) as [-> ->].
  destruct (balances_from_tables d p) as [-> ->].
  rewrite insert_transaction_returns.
  cbn [final with_stock_summary insert_transaction_row transactions payments].
  rewrite !billed_insert by apply autoincrement_fresh.
  unfold credit_any_case. split; ring.
Qed.

(** Deleting one transaction takes its amount back out of the balance it
    had entered: the party's net receivable for a credit sale, the net
    payable for a credit purchase, nothing otherwise. *)
Theorem delete_moves_balance (rid : Z) (row : transaction) (d : db)
    (p : string) :
  transactions d !! rid = Some row →
  let d' := final (delete_records Transactions [rid] d) in
  let on_credit ttype :=
    if decide (lower (t_cash_credit row) = "credit" ∧ t_party_name row = p ∧
               t_transaction_type row = ttype)
    then t_amount row else 0%Qc in
  delete_records Transactions [rid] d = Returned d' ∧
  net_receivable (load_transactions d') (load_payments d') p =
    (net_receivable (load_transactions d) (load_payments d) p
     - on_credit "sale")%Qc ∧
  net_payable (load_transactions d') (load_payments d') p =
    (net_payable (load_transactions d) (load_payments d) p
     - on_credit "purchase")%Qc.
Proof.
  intros Hrow d' on_credit. subst d' on_credit.
  rewrite (delete_records_present_then_missing rid [] d row) by
    (done || constructor).
  cbn [final]. split; [done|].
  destruct (balances_from_tables
              (delete_row Transactions rid (reversed row d)) p) as [-> ->].
  destruct (balances_from_tables d p) as [-> ->].
  cbn [delete_row reversed with_stock_summary transactions payments].
  rewrite !(billed_delete _ _ _ _ _ row) by done.
  unfold credit_any_case. split; ring.
Qed.

Lemma delete_moves_balance_witness :
  transactions after_sale !! 2 = Some sale_40 ∧
  let d' := final (delete_records Transactions [2] after_sale) in
  let on_credit ttype :=
    if decide (lower (t_cash_credit sale_40) = "credit" ∧
               t_party_name sale_40 = "ABC Traders" ∧
               t_transaction_type sale_40 = ttype)
    then t_amount sale_40 else 0%Qc in
  delete_records Transactions [2] after_sale = Returned d' ∧
  net_receivable (load_transactions d') (load_payments d') "ABC Traders" =
    (net_receivable (load_transactions after_sale) (load_payments after_sale)
       "ABC Traders" - on_credit "sale")%Qc ∧
  net_payable (load_transactions d') (load_payments d') "ABC Traders" =
    (net_payable (load_transactions after_sale) (load_payments after_sale)
       "ABC Traders" - on_credit "purchase")%Qc.
Proof.
  assert (transactions after_sale !! 2 = Some sale_40) as H by reflexivity.
  split; [exact H|].
  exact (delete_moves_balance 2 sale_40 after_sale "ABC Traders" H).
Defined.

(** ** The two tables under the totals *)

Lemma sum_of_positive_part {A} (f : A → Qc) (l : list A) :
  Forall (λ x, (0 ≤ f x)%Qc) l →
  series_sum (f <$> filter (λ x, (0 < f x)%Qc) l) = series_sum (f <$> l).
Proof.
  unfold series_sum. induction 1 as [|x l Hx _ IH]; [done|].
  rewrite filter_cons. case_decide as Hpos; cbn [fmap list_fmap foldr].
  - cbn [fmap list_fmap] in IH. by rewrite IH.
  - cbn [fmap list_fmap] in IH. rewrite IH.
    assert (f x = 0%Qc) as ->; [|ring].
    apply Qcle_antisym; [by apply Qcnot_lt_le | done].
Qed.

Lemma max0_pos (x : Qc) : (epsilon < x)%Qc → (0 < max0 x)%Qc.
Proof.
  intros Hx. assert (0 < x)%Qc as Hpos.
  { apply (Qclt_trans _ epsilon); [reflexivity | done]. }
  unfold max0. by rewrite decide_True.
Qed.

(** Every listed party shows up in the receivables table or in the payables
    table, the receivables shown add up to "Total Net Receivable" and the
    payables shown to "Total Net Payable": the rows each table hides carry
    zero.  The "Net Market Balance" is the difference of the two sums. *)
Theorem balance_tables_add_up (d : db) :
  let page := stock_credit_page d in
  (∀ row, row ∈ detailed_list page →
          row ∈ client_receivables page ∨ row ∈ supplier_payables page) ∧
  series_sum (br_pending_receivable <$> client_receivables page) =
    total_rec page ∧
  series_sum (br_pending_payable <$> supplier_payables page) =
    total_pay page ∧
  net_market_balance page =
    (series_sum (br_pending_receivable <$> client_receivables page)
     - series_sum (br_pending_payable <$> supplier_payables page))%Qc.
Proof.
  intros page. subst page.
  unfold net_market_balance, client_receivables, supplier_payables,
    stock_credit_page.
  rewrite credit_balances_listed.
  cbn [detailed_list total_rec total_pay].
  set (h := load_transactions d). set (q := load_payments d).
  set (l := listed h q (all_p_list h)).
  assert (Forall (λ row, (0 ≤ br_pending_receivable row)%Qc ∧
                         (0 ≤ br_pending_payable row)%Qc)
                 (report_row h q <$> l)) as Hpos.
  { apply Forall_fmap, Forall_forall. intros p _. split; apply max0_nonneg. }
  assert (series_sum (br_pending_receivable <$>
            filter (λ row, (0 < br_pending_receivable row)%Qc)
                   (report_row h q <$> l)) =
          series_sum (br_pending_receivable ∘ report_row h q <$> l)) as Hrec.
  { rewrite sum_of_positive_part, <-list_fmap_compose; [done|].
    eapply Forall_impl; [exact Hpos|]. by intros row [? _]. }
  assert (series_sum (br_pending_payable <$>
            filter (λ row, (0 < br_pending_payable row)%Qc)
                   (report_row h q <$> l)) =
          series_sum (br_pending_payable ∘ report_row h q <$> l)) as Hpay.
  { rewrite sum_of_positive_part, <-list_fmap_compose; [done|].
    eapply Forall_impl; [exact Hpos|]. by intros row [_ ?]. }
  split; [|by rewrite Hrec, Hpay].
  intros row (p & -> & Hp)%list_elem_of_fmap.
  subst l. unfold listed in Hp. apply list_elem_of_filter in Hp as [Hout Hp].
  rewrite !list_elem_of_filter.
  assert (report_row h q p ∈ report_row h q <$>
            filter (is_outstanding h q) (all_p_list h)) as Hin.
  { apply list_elem_of_fmap. exists p. split; [done|].
    by apply list_elem_of_filter. }
  destruct Hout as [Hout|Hout]; [left|right]; (split; [|exact Hin]);
    unfold report_row; cbn [br_pending_receivable br_pending_payable];
    by apply max0_pos.
Qed.

(** ** Bills *)

Lemma StronglySorted_filter_keep {A} (R : relation A) (P : A → Prop)
    `{!∀ x, Decision (P x)} (l : list A) :
  StronglySorted R l → StronglySorted R (filter P l).
Proof.
  induction 1 as [|x l _ IH Hx]; [constructor|].
  rewrite filter_cons. case_decide; [|done].
  constructor; [done|]. rewrite Forall_forall in Hx |- *.
  intros y [_ Hy]%list_elem_of_filter. by apply Hx.
Qed.

Lemma strictly_descending_ids_distinct {A} (l : list (Z * A)) :
  StronglySorted id_gt l → NoDup (l.*1).
Proof.
  induction 1 as [|x l _ IH Hx]; [constructor|].
  cbn [fmap list_fmap]. apply NoDup_cons. split; [|done].
  intros (y & Heq & Hy)%list_elem_of_fmap.
  rewrite Forall_forall in Hx. specialize (Hx y Hy). unfold id_gt in Hx. lia.
Qed.

(** A bill made from typed ids holds exactly the transactions that exist
    under one of the ids, each once however often its id was typed, newest
    first; ids without a record are passed over; nothing is printed exactly
    when none of the ids has a record.  The total is the sum of the absolute
    amounts and so is never negative. *)
Theorem manual_bill (id_list : list Z) (d : db) :
  let bill := bill_data_manual id_list (load_transactions d) in
  (∀ rid row, (rid, row) ∈ bill ↔
              rid ∈ id_list ∧ transactions d !! rid = Some row) ∧
  StronglySorted id_gt bill ∧
  NoDup (bill.*1) ∧
  (printed_bill bill = None ↔
   Forall (λ rid, transactions d !! rid = None) id_list) ∧
  total_val bill =
    series_sum ((Qcabs ∘ t_amount ∘ snd) <$>
      filter (λ r, r.1 ∈ id_list) (map_to_list (transactions d))) ∧
  (0 ≤ total_val bill)%Qc.
Proof.
  intros bill.
  assert (∀ rid row, (rid, row) ∈ bill ↔
            rid ∈ id_list ∧ transactions d !! rid = Some row) as Hmem.
  { intros rid row. subst bill. unfold bill_data_manual, load_transactions.
    rewrite list_elem_of_filter, order_by_id_desc_perm, elem_of_map_to_list.
    done. }
  assert (StronglySorted id_gt bill) as Hsorted.
  { apply StronglySorted_filter_keep, order_by_id_desc_strict. }
  assert (total_val bill = series_sum ((Qcabs ∘ t_amount ∘ snd) <$> bill)) as Htot.
  { unfold total_val, display_bill. by rewrite <-list_fmap_compose. }
  split; [exact Hmem|]. split; [exact Hsorted|].
  split; [by apply strictly_descending_ids_distinct|].
  split; [|split].
  - split.
    + intros Hnone. apply Forall_forall. intros rid Hrid.
      destruct (transactions d !! rid) as [row|] eqn:Hrow; [|done].
      assert ((rid, row) ∈ bill) as Hin by by apply Hmem.
      destruct bill; [by apply elem_of_nil in Hin | done].
    + intros Hall. destruct bill as [|[rid row] bill'] eqn:Hbill; [done|].
      assert ((rid, row) ∈ (rid, row) :: bill') as Hin by by left.
      apply Hmem in Hin as [Hrid Hrow].
      rewrite Forall_forall in Hall. by rewrite (Hall rid Hrid) in Hrow.
  - rewrite Htot. subst bill. unfold bill_data_manual, load_transactions.
    by apply filtered_sum_sorted.
  - rewrite Htot. apply series_sum_nonneg, Forall_fmap, Forall_forall.
    intros r _. apply Qcabs_nonneg.
Qed.

(** The party printed in the bill header is the party of the newest
    transaction on the bill, whatever the parties of the other lines. *)
Theorem bill_header_is_newest_party (id_list : list Z) (d : db) :
  match printed_bill (bill_data_manual id_list (load_transactions d)) with
  | None => True
  | Some (party, lines, total) =>
      ∃ rid row, rid ∈ id_list ∧ transactions d !! rid = Some row ∧
        party = t_party_name row ∧
        ∀ rid' row', rid' ∈ id_list → transactions d !! rid' = Some row' →
                     rid' ≤ rid
  end.
Proof.
  assert (∀ rid row, (rid, row) ∈ bill_data_manual id_list (load_transactions d) ↔
            rid ∈ id_list ∧ transactions d !! rid = Some row) as Hmem.
  { intros rid row. unfold bill_data_manual, load_transactions.
    rewrite list_elem_of_filter, order_by_id_desc_perm, elem_of_map_to_list.
    done. }
  assert (StronglySorted id_gt (bill_data_manual id_list (load_transactions d)))
    as Hsorted by apply StronglySorted_filter_keep, order_by_id_desc_strict.
  destruct (bill_data_manual id_list (load_transactions d))
    as [|[rid row] bill'] eqn:Hbill; [done|].
  cbn [printed_bill snd]. exists rid, row.
  destruct (proj1 (Hmem rid row)) as [Hrid Hrow]; [by left|].
  split; [done|]. split; [done|]. split; [done|].
  intros rid' row' Hrid' Hrow'.
  assert ((rid', row') ∈ (rid, row) :: bill') as Hin by by apply Hmem.
  apply elem_of_cons in Hin as [[= -> _]|Hin]; [done|].
  apply StronglySorted_inv in Hsorted as [_ Hall].
  rewrite Forall_forall in Hall. specialize (Hall _ Hin).
  unfold id_gt in Hall. cbn [fst] in Hall. lia.
Qed.

(** ** Order of the party list *)

#[global] Instance str_le_total : Total str_le.
Proof.
  intros a b. unfold str_le.
  destruct (String.leb_total a b) as [->| ->]; [by left | by right].
Qed.

#[global] Instance str_le_trans : Transitive str_le.
Proof.
  unfold str_le, String.leb. intros s1.
  induction s1 as [|c1 s1 IH]; intros [|c2 s2] [|c3 s3];
    cbn [String.compare]; try done.
  destruct (Ascii.compare c1 c2) eqn:E12; [| |done];
    (destruct (Ascii.compare c2 c3) eqn:E23; [| |done]);
    destruct (Ascii.compare c1 c3) eqn:E13; try done;
    try apply IH;
    exfalso; unfold Ascii.compare in *;
    rewrite ?N.compare_eq_iff, ?N.compare_lt_iff, ?N.compare_gt_iff in *; lia.
Qed.

(** The page goes through the parties in ascending order of their names and
    lists each outstanding party once, so the list offered for recording a
    payment and the rows of the balance table are in that same order. *)
Theorem outstanding_parties_in_name_order (d : db) :
  let page := stock_credit_page d in
  StronglySorted str_le (outstanding_parties page) ∧
  br_party_name <$> detailed_list page = outstanding_parties page.
Proof.
  intros page. subst page. unfold stock_credit_page.
  rewrite credit_balances_listed. cbn [detailed_list outstanding_parties].
  split.
  - unfold listed, all_p_list, sorted.
    apply StronglySorted_filter_keep, StronglySorted_merge_sort; apply _.
  - rewrite <-list_fmap_compose. apply list_fmap_id.
Qed.

(** ** Saving an expense *)

(** "Save Expense" does nothing for an amount that is not positive;
    otherwise it adds one expense, which the history then shows first, and
    it never touches transactions, stock or payments. *)
Theorem save_expense_guard (exp_date exp_type : string) (exp_amt : Qc)
    (exp_rem : string) (d : db) :
  let d' := save_expense exp_date exp_type exp_amt exp_rem d in
  (d' = d ↔ (exp_amt ≤ 0)%Qc) ∧
  load_expenses d' =
    (if decide (0 < exp_amt)%Qc
     then [(autoincrement (expenses d) (expenses_seq d),
            Expense exp_date exp_type exp_amt exp_rem)]
     else []) ++ load_expenses d ∧
  (transactions d', stock_summary d', payments d') =
    (transactions d, stock_summary d, payments d).
Proof.
  intros d'. subst d'. unfold save_expense. case_decide as Hamt.
  - split; [|split; [|done]].
    + split; [|by intros Hle%Qcle_ngt].
      intros Heq.
      apply (f_equal (λ x, expenses x !!
               autoincrement (expenses d) (expenses_seq d))) in Heq.
      cbn [insert_expense expenses] in Heq.
      by rewrite lookup_insert_eq, autoincrement_fresh in Heq.
    + unfold load_expenses. cbn [insert_expense expenses app].
      apply order_by_id_desc_insert.
  - split; [|done]. split; [|done]. intros _. by apply Qcle_ngt.
Qed.

(** ** A party known only from payments *)

Lemma outsider_not_outstanding_witness :
  let d := insert_payment
             (Payment "2024-01-03 10:00" "Walk-in" "Inward" (Q2Qc (5 # 1)) "")
             after_sale in
  (∀ rid x, transactions d !! rid = Some x → t_party_name x ≠ "Walk-in") ∧
  (∀ rid x, payments d !! rid = Some x → (0 ≤ p_amount x)%Qc) ∧
  ¬ is_outstanding (load_transactions d) (load_payments d) "Walk-in".
Proof.
  intros d.
  assert (∀ rid x, transactions d !! rid = Some x → t_party_name x ≠ "Walk-in")
    as H1.
  { intros rid x. subst d. cbn [insert_payment transactions].
    rewrite after_sale_rows.
    destruct (decide (rid = 2)) as [->|H2].
    - rewrite lookup_insert_eq. by intros [= <-].
    - rewrite lookup_insert_ne by done.
      destruct (decide (rid = 1)) as [->|H1'].
      + rewrite lookup_insert_eq. by intros [= <-].
      + by rewrite lookup_insert_ne, lookup_empty by done. }
  assert (∀ rid x, payments d !! rid = Some x → (0 ≤ p_amount x)%Qc) as H2.
  { intros rid x. subst d. cbn [insert_payment payments].
    destruct (decide (rid = autoincrement (payments after_sale)
                               (payments_seq after_sale))) as [->|Hne].
    - rewrite lookup_insert_eq. by intros [= <-].
    - by rewrite lookup_insert_ne by done. }
  split; [exact H1|]. split; [exact H2|].
  exact (outsider_not_outstanding d "Walk-in" H1 H2).
Defined.
